(** * ddsp: a replicated key-value store (Router, Node, Frontend)

    Shallow embedding of [router/router.go], [node/node.go] and
    [frontend/frontend.go], followed by the properties of the quorum
    fan-out, the liveness filter and the node record map. *)

From Stdlib Require Import ZArith.
From Stdlib.Strings Require Import Byte.
From stdpp Require Import gmap strings list fin_maps.

Local Open Scope Z_scope.
Local Open Scope nat_scope.

(* ===================================================================== *)
(** ** Package [storage]: shared types, error values, constants *)
(* ===================================================================== *)

Module Storage.

(** Modelled from the spec: the types of package [storage], which is not
    among the sources.  A [ServiceAddr] is an address string and a
    [RecordID] an integer key; equality is all the code asks of them.  A
    [[]byte] is a list of bytes (the nil slice is the empty list).  The two
    constants of the package, [ReplicationFactor] and [MinRedundancy], are
    variables of the sections that use them. *)
Abbreviation ServiceAddr := string (only parsing).
Abbreviation RecordID := N (only parsing).
Abbreviation bytes := (list Byte.byte) (only parsing).

(** Modelled from the spec: the error values of package [storage], which
    is not among the sources.  The five canonical kinds are the ones the
    code names ([storage.ErrRecordExists], ...); [ErrTransport] stands for
    any other [error] value a client can hand back, told apart by a tag,
    so that two different transport failures are two different map keys. *)
Inductive Err : Type :=
| ErrRecordExists
| ErrRecordNotFound
| ErrUnknownDaemon
| ErrNotEnoughDaemons
| ErrQuorumNotReached
| ErrTransport (tag : nat).

(** A Go [error] result: [None] is [nil]. *)
Abbreviation error := (option Err) (only parsing).

(** A Go [(T, error)] result in which the value is only read when the
    error is [nil]. *)
Inductive result (A : Type) : Type :=
| Ok (a : A)
| Fail (e : Err).
Global Arguments Ok {A} a.
Global Arguments Fail {A} e.

Global Instance byte_eq_dec : EqDecision Byte.byte := Byte.byte_eq_dec.

Global Instance Err_eq_dec : EqDecision Err.
Proof. solve_decision. Defined.

Definition Err_code (e : Err) : nat :=
  match e with
  | ErrRecordExists => 0
  | ErrRecordNotFound => 1
  | ErrUnknownDaemon => 2
  | ErrNotEnoughDaemons => 3
  | ErrQuorumNotReached => 4
  | ErrTransport tag => 5 + tag
  end.

Definition Err_decode (n : nat) : Err :=
  match n with
  | 0 => ErrRecordExists
  | 1 => ErrRecordNotFound
  | 2 => ErrUnknownDaemon
  | 3 => ErrNotEnoughDaemons
  | 4 => ErrQuorumNotReached
  | S (S (S (S (S tag)))) => ErrTransport tag
  end.

Global Instance Err_countable : Countable Err.
Proof.
  apply (inj_countable' Err_code Err_decode).
  intros []; reflexivity.
Defined.

End Storage.

(* ===================================================================== *)
(** ** Package [time]: instants and saturating durations *)
(* ===================================================================== *)

Module Time.

(** A [time.Time] is an instant in nanoseconds, counted from the zero
    [Time]; a [time.Duration] is an [int64] count of nanoseconds. *)
Abbreviation Time := Z (only parsing).
Abbreviation Duration := Z (only parsing).

Definition zero : Time := 0%Z.
Definition minDuration : Duration := (- 2 ^ 63)%Z.
Definition maxDuration : Duration := (2 ^ 63 - 1)%Z.

(** [t.Sub(u)]: the difference, saturated to the range of [Duration]. *)
Definition Sub (t u : Time) : Duration :=
  let d := (t - u)%Z in
  if (d <? minDuration)%Z then minDuration
  else if (maxDuration <? d)%Z then maxDuration
  else d.

End Time.

(* ===================================================================== *)
(** ** Package [router] *)
(* ===================================================================== *)

Module Router.
Import Storage.

(** The interface type [NodesFinder], declared outside these sources, as
    the one method the code calls on it: [NodesFind(k, nodes)]. *)
Abbreviation NodesFinderI := (RecordID → list ServiceAddr → list ServiceAddr)
  (only parsing).

Record Config := {
  Addr : ServiceAddr;
  Nodes : list ServiceAddr;
  ForgetTimeout : Time.Duration;
  NodesFinder : NodesFinderI
}.

(** The [lock] field is left out: the operations below are the bodies run
    while the lock is held, one at a time. *)
Record Router := {
  conf : Config;
  heartbeat : gmap ServiceAddr Time.Time
}.

Section WithConstants.
Variable ReplicationFactor : nat.
Variable MinRedundancy : nat.

(** The loop of [New]: [ret.heartbeat[node] = now] for each node. *)
Definition seed (now : Time.Time) (nodes : list ServiceAddr)
    (hb : gmap ServiceAddr Time.Time) : gmap ServiceAddr Time.Time :=
  fold_left (λ hb node, <[node := now]> hb) nodes hb.

(** [New(cfg)]; [now] is what [time.Now()] returns in it. *)
Definition New (cfg : Config) (now : Time.Time) : result Router :=
  if length (Nodes cfg) <? ReplicationFactor then
    Fail ErrNotEnoughDaemons
  else
    Ok {| conf := cfg; heartbeat := seed now (Nodes cfg) ∅ |}.

(** [r.Heartbeat(node)]: the router after the call and the error. *)
Definition Heartbeat (r : Router) (node : ServiceAddr) (now : Time.Time)
    : Router * error :=
  match heartbeat r !! node with
  | None => (r, Some ErrUnknownDaemon)
  | Some _ =>
      ({| conf := conf r; heartbeat := <[node := now]> (heartbeat r) |},
       None)
  end.

(** [r.heartbeat[node]]: a missing key reads as the zero [Time]. *)
Definition lastBeat (r : Router) (node : ServiceAddr) : Time.Time :=
  default Time.zero (heartbeat r !! node).

Definition alive (r : Router) (now : Time.Time) (node : ServiceAddr)
    : bool :=
  (Time.Sub now (lastBeat r node) <=? ForgetTimeout (conf r))%Z.

(** The loop of [NodesFind]: [foundNodes] grows by [append]. *)
Definition findLoop (r : Router) (now : Time.Time)
    (nodes foundNodes : list ServiceAddr) : list ServiceAddr :=
  fold_left
    (λ found node, if alive r now node then found ++ [node] else found)
    nodes foundNodes.

(** [r.NodesFind(k)]; [now] is what [time.Now()] returns in it. *)
Definition NodesFind (r : Router) (k : RecordID) (now : Time.Time)
    : result (list ServiceAddr) :=
  let nodes := NodesFinder (conf r) k (Nodes (conf r)) in
  let foundNodes := findLoop r now nodes [] in
  if length foundNodes <? MinRedundancy then Fail ErrNotEnoughDaemons
  else Ok foundNodes.

Definition List (r : Router) : list ServiceAddr := Nodes (conf r).

(** The routers a process can hold: the one [New] built, then any
    number of [Heartbeat] calls ([NodesFind] and [List] write nothing). *)
Inductive reachable (cfg : Config) : Router → Prop :=
| reachable_New now r :
    New cfg now = Ok r → reachable cfg r
| reachable_Heartbeat r node now :
    reachable cfg r → reachable cfg (Heartbeat r node now).1.

End WithConstants.
End Router.

(* ===================================================================== *)
(** ** Package [node] *)
(* ===================================================================== *)

Module Node.
Import Storage.

(** The record map of a [Node]; the configuration, the heartbeat channel
    and the lock play no part in [Put], [Del] and [Get]. *)
Record Node := {
  storage : gmap RecordID bytes
}.

Definition New : Node := {| storage := ∅ |}.

Definition Put (node : Node) (k : RecordID) (d : bytes) : Node * error :=
  match storage node !! k with
  | Some _ => (node, Some ErrRecordExists)
  | None => ({| storage := <[k := d]> (storage node) |}, None)
  end.

Definition Del (node : Node) (k : RecordID) : Node * error :=
  match storage node !! k with
  | None => (node, Some ErrRecordNotFound)
  | Some _ => ({| storage := delete k (storage node) |}, None)
  end.

Definition Get (node : Node) (k : RecordID) : result bytes :=
  match storage node !! k with
  | Some item => Ok item
  | None => Fail ErrRecordNotFound
  end.

End Node.

(* ===================================================================== *)
(** ** Package [frontend] *)
(* ===================================================================== *)

Module Frontend.
Import Storage.

(** [result] of [Get]: what one replica answered.  [data] is only read
    when [err] is [nil]. *)
Record GetResult := {
  data : bytes;
  err : error
}.

(** The client interfaces the Frontend is configured with.  What a node
    answers during one request is a function of the node. *)
Record NodeClient := {
  NC_Put : ServiceAddr → RecordID → bytes → error;
  NC_Del : ServiceAddr → RecordID → error;
  NC_Get : ServiceAddr → RecordID → GetResult
}.

Record RouterClient := {
  RC_NodesFind : ServiceAddr → RecordID → result (list ServiceAddr)
}.

Record Config := {
  Addr : ServiceAddr;
  Router : ServiceAddr;
  NC : NodeClient;
  RC : RouterClient;
  NF : Router.NodesFinderI
}.

(** [initDone] is the state of [initOnce]. *)
Record Frontend := {
  conf : Config;
  initDone : bool;
  routerNodes : list ServiceAddr
}.

Definition New (cfg : Config) : Frontend :=
  {| conf := cfg; initDone := false; routerNodes := [] |}.

(** What a request does to the outside, in program order; the fan-out
    goroutines are listed in the order they are started. *)
Inductive event : Type :=
| EvNodesFind (router : ServiceAddr) (k : RecordID)
| EvList (router : ServiceAddr)
| EvSleep
| EvMethod (node : ServiceAddr)
| EvGet (node : ServiceAddr) (k : RecordID).

Global Instance event_eq_dec : EqDecision event.
Proof. solve_decision. Defined.

(** [m[k]] of a Go map of counters (zero when absent) and [m[k]++]. *)
Definition counter `{Countable K} (m : gmap K nat) (k : K) : nat :=
  default 0 (m !! k).

Definition incr `{Countable K} (k : K) (m : gmap K nat) : gmap K nat :=
  <[k := S (counter m k)]> m.

(** The two tallies of [applyPutDel]. *)
Record Tally := {
  okCount : nat;
  errCounts : gmap Err nat
}.

Definition tally0 : Tally := {| okCount := 0; errCounts := ∅ |}.

(** One pass of the body of [for range nodes] in [applyPutDel]. *)
Definition tallyStep (t : Tally) (e : error) : Tally :=
  match e with
  | None => {| okCount := S (okCount t); errCounts := errCounts t |}
  | Some e => {| okCount := okCount t; errCounts := incr e (errCounts t) |}
  end.

(** [for range nodes { err := <-results; ... }]: [n] receives from the
    channel, whose future content is [results]; [None] when a receive
    finds nothing to come.  Returns the tally and what is left unread. *)
Fixpoint collect (n : nat) (results : list error) (t : Tally)
    : option (Tally * list error) :=
  match n with
  | 0 => Some (t, results)
  | S n' =>
      match results with
      | [] => None
      | e :: results' => collect n' results' (tallyStep t e)
      end
  end.

Section WithConstants.
Variable MinRedundancy : nat.

(** [for err, count := range errCounts { if count >= M { return err } }],
    the entries of the map being visited in the order [order]. *)
Fixpoint firstQuorum (order : list (Err * nat)) : error :=
  match order with
  | [] => None
  | (e, count) :: order' =>
      if MinRedundancy <=? count then Some e else firstQuorum order'
  end.

(** Lines 85-95 of [applyPutDel]. *)
Definition resolve (t : Tally) (order : list (Err * nat)) : error :=
  if MinRedundancy <=? okCount t then None
  else
    match firstQuorum order with
    | Some e => Some e
    | None => Some ErrQuorumNotReached
    end.

(** [fe.applyPutDel(k, method)]: the events and the returned error.
    Two things are not fixed by the program: the order in which the
    goroutines' results reach the channel ([results], any arrangement
    of the per-node results) and the order in which [range] visits the
    map ([order], any arrangement of its entries). *)
Inductive applyPutDel (fe : Frontend) (k : RecordID)
    (method : ServiceAddr → error) : list event → error → Prop :=
| applyPutDel_router_err e :
    RC_NodesFind (RC (conf fe)) (Router (conf fe)) k = Fail e →
    applyPutDel fe k method [EvNodesFind (Router (conf fe)) k] (Some e)
| applyPutDel_few nodes :
    RC_NodesFind (RC (conf fe)) (Router (conf fe)) k = Ok nodes →
    length nodes < MinRedundancy →
    applyPutDel fe k method [EvNodesFind (Router (conf fe)) k]
      (Some ErrNotEnoughDaemons)
| applyPutDel_fanout nodes results t rest order :
    RC_NodesFind (RC (conf fe)) (Router (conf fe)) k = Ok nodes →
    ¬ length nodes < MinRedundancy →
    results ≡ₚ method <$> nodes →
    collect (length nodes) results tally0 = Some (t, rest) →
    order ≡ₚ map_to_list (errCounts t) →
    applyPutDel fe k method
      (EvNodesFind (Router (conf fe)) k :: (EvMethod <$> nodes))
      (resolve t order).

Definition Put (fe : Frontend) (k : RecordID) (d : bytes)
    : list event → error → Prop :=
  applyPutDel fe k (λ node, NC_Put (NC (conf fe)) node k d).

Definition Del (fe : Frontend) (k : RecordID)
    : list event → error → Prop :=
  applyPutDel fe k (λ node, NC_Del (NC (conf fe)) node k).

(** The retry loop inside [initOnce.Do]: [answers] is what the Router's
    [List] returns to the successive calls.  Gives the roster, the
    answers not yet used and the events; [None] when no call succeeds,
    in which case the loop does not end. *)
Fixpoint listLoop (router : ServiceAddr)
    (answers : list (result (list ServiceAddr)))
    : option (list ServiceAddr * list (result (list ServiceAddr))
              * list event) :=
  match answers with
  | [] => None
  | Ok nodes :: answers' => Some (nodes, answers', [EvList router])
  | Fail _ :: answers' =>
      match listLoop router answers' with
      | Some (nodes, rest, evs) =>
          Some (nodes, rest, EvList router :: EvSleep :: evs)
      | None => None
      end
  end.

(** [fe.initOnce.Do(...)]. *)
Definition init (fe : Frontend)
    (answers : list (result (list ServiceAddr)))
    : option (Frontend * list (result (list ServiceAddr)) * list event) :=
  if initDone fe then Some (fe, answers, [])
  else
    match listLoop (Router (conf fe)) answers with
    | Some (nodes, rest, evs) =>
        Some ({| conf := conf fe; initDone := true;
                 routerNodes := nodes |}, rest, evs)
    | None => None
    end.

(** [dataKey := string(result.data)]. *)
Definition dataKey (r : GetResult) : string :=
  String.string_of_list_byte (data r).

(** The collecting loop of [Get], which returns from inside the loop as
    soon as a counter is at [MinRedundancy]. *)
Fixpoint collectGet (n : nat) (results : list GetResult)
    (dataCounts : gmap string nat) (errCounts : gmap Err nat)
    : option GetResult :=
  match n with
  | 0 => Some {| data := []; err := Some ErrQuorumNotReached |}
  | S n' =>
      match results with
      | [] => None
      | r :: results' =>
          match err r with
          | Some e =>
              let errCounts' := incr e errCounts in
              if MinRedundancy <=? counter errCounts' e then
                Some {| data := []; err := Some e |}
              else collectGet n' results' dataCounts errCounts'
          | None =>
              let dataCounts' := incr (dataKey r) dataCounts in
              if MinRedundancy <=? counter dataCounts' (dataKey r) then
                Some {| data := data r; err := None |}
              else collectGet n' results' dataCounts' errCounts
          end
      end
  end.

(** The replicas [Get] asks: [fe.conf.NF.NodesFind(k, fe.routerNodes)]. *)
Definition replicas (fe : Frontend) (k : RecordID) : list ServiceAddr :=
  NF (conf fe) k (routerNodes fe).

(** [fe.Get(k)]: the Frontend and the unused [List] answers after the
    call, the events and the result; [results] is the order in which
    the replicas' answers reach the channel. *)
Inductive Get (fe : Frontend) (answers : list (result (list ServiceAddr)))
    (k : RecordID)
    : Frontend → list (result (list ServiceAddr)) → list event →
      GetResult → Prop :=
| Get_run fe' answers' evs results out :
    init fe answers = Some (fe', answers', evs) →
    results ≡ₚ (λ node, NC_Get (NC (conf fe')) node k) <$> replicas fe' k →
    collectGet (length (replicas fe' k)) results ∅ ∅ = Some out →
    Get fe answers k fe' answers'
      (evs ++ ((λ node, EvGet node k) <$> replicas fe' k)) out.

(** Successive [Get] calls on one Frontend, one after the other: the
    keys asked, the state after the last call and what each call did. *)
Inductive Gets
    : Frontend → list (result (list ServiceAddr)) → list RecordID →
      Frontend → list (result (list ServiceAddr)) →
      list (list event * GetResult) → Prop :=
| Gets_nil fe answers :
    Gets fe answers [] fe answers []
| Gets_cons fe answers k ks fe1 answers1 evs out fe2 answers2 log :
    Get fe answers k fe1 answers1 evs out →
    Gets fe1 answers1 ks fe2 answers2 log →
    Gets fe answers (k :: ks) fe2 answers2 ((evs, out) :: log).

End WithConstants.
End Frontend.

(* ===================================================================== *)
(** ** The quantities the properties are stated with *)
(* ===================================================================== *)

Module Quorum.
Import Storage Frontend.

(** How many nodes reported success, and how many reported the error [e]. *)
Definition successes (results : list error) : nat :=
  length (filter (λ r, r = None) results).

Definition reports (e : Err) (results : list error) : nat :=
  length (filter (λ r, r = Some e) results).

(** The Put/Del decision in the words of the specification: success with
    [M] successes, else the error kind [e] whenever [e] has [M] reports,
    else [ErrQuorumNotReached]. *)
Definition statedOutcome (M : nat) (results : list error) (out : error)
    : Prop :=
  (M ≤ successes results → out = None)
  ∧ (successes results < M →
     ∀ e, M ≤ reports e results → out = Some e)
  ∧ (successes results < M → (∀ e, reports e results < M) →
     out = Some ErrQuorumNotReached).

(** The decision the code takes: as above, except that with [M] reports for
    one kind or more the result is one of the kinds that have [M] reports. *)
Definition quorumOutcome (M : nat) (results : list error) (out : error)
    : Prop :=
  (M ≤ successes results → out = None)
  ∧ (successes results < M → (∃ e, M ≤ reports e results) →
     ∃ e, out = Some e ∧ M ≤ reports e results)
  ∧ (successes results < M → (∀ e, reports e results < M) →
     out = Some ErrQuorumNotReached).

(** What lines 73-95 of [applyPutDel] can return when the results arrive in
    the order [results]. *)
Definition decision (M : nat) (results : list error) (out : error) : Prop :=
  ∃ t rest order,
    collect (length results) results tally0 = Some (t, rest)
    ∧ order ≡ₚ map_to_list (errCounts t)
    ∧ out = resolve M t order.

(** The tally of a whole sequence of results. *)
Abbreviation tallyAll results := (fold_left tallyStep results tally0).

(** Two answers to [Get] count together: the same error, or no error and
    the same bytes. *)
Definition sameAnswer (r r' : GetResult) : Prop :=
  match err r, err r' with
  | Some e, Some e' => e = e'
  | None, None => data r = data r'
  | _, _ => False
  end.

Global Instance sameAnswer_dec r r' : Decision (sameAnswer r r').
Proof. unfold sameAnswer. destruct (err r), (err r'); apply _. Defined.

(** How many of [results] count together with [r]. *)
Definition agreeing (r : GetResult) (results : list GetResult) : nat :=
  length (filter (sameAnswer r) results).

(** What [Get] hands back when the answer [r] wins. *)
Definition winner (r : GetResult) : GetResult :=
  match err r with
  | Some e => {| data := []; err := Some e |}
  | None => {| data := data r; err := None |}
  end.

Definition quorumNotReached : GetResult :=
  {| data := []; err := Some ErrQuorumNotReached |}.

(** The two maps of [Get] hold, for every answer, how many of the answers
    [pre] count together with it. *)
Definition counted (pre : list GetResult) (dataCounts : gmap string nat)
    (errCounts : gmap Err nat) : Prop :=
  ∀ r, match err r with
       | Some e => counter errCounts e
       | None => counter dataCounts (dataKey r)
       end = agreeing r pre.

(** No answer of [results] brings its counter to [M] when it is counted. *)
Definition neverAtQuorum (M : nat) (results : list GetResult) : Prop :=
  ∀ pre r post, results = pre ++ r :: post → agreeing r (pre ++ [r]) < M.

(** [r], arriving after [before], is the first answer that brings its
    counter to [M]. *)
Definition firstAtQuorum (M : nat) (before : list GetResult) (r : GetResult)
    : Prop :=
  M ≤ agreeing r (before ++ [r]) ∧ neverAtQuorum M before.

(** How many replicas answered with exactly the bytes [b]. *)
Definition replied (b : bytes) (results : list GetResult) : nat :=
  length (filter (λ r, err r = None ∧ data r = b) results).

(** [roster] is the first answer of [List] without error, [rest] what
    follows it. *)
Definition firstRoster (answers : list (result (list ServiceAddr)))
    (roster : list ServiceAddr) (rest : list (result (list ServiceAddr)))
    : Prop :=
  ∃ failed,
    answers = failed ++ Ok roster :: rest
    ∧ Forall (λ a, ∃ e, a = Fail e) failed.

(** The events of a [Get] that asks [replicas] and calls [List] never. *)
Definition getEvents (k : RecordID) (replicas : list ServiceAddr)
    : list event :=
  (λ node, EvGet node k) <$> replicas.

Definition isList (ev : event) : Prop :=
  match ev with EvList _ => True | _ => False end.

Definition isNodeCall (ev : event) : Prop :=
  match ev with EvMethod _ | EvGet _ _ => True | _ => False end.

End Quorum.

(* ===================================================================== *)
(** ** Concrete systems, with [MinRedundancy] 2 *)
(* ===================================================================== *)

Module Scenario.
Import Storage Frontend.

Definition roster : list string := ["A"; "B"; "C"]%string.

(** A placement function: the first three candidates, whatever the key. *)
Definition firstThree (k : N) (nodes : list string) : list string :=
  take 3 nodes.

(** One that keeps a single candidate. *)
Definition firstOnly (k : N) (nodes : list string) : list string :=
  take 1 nodes.

Definition routerCfg : Router.Config :=
  {| Router.Addr := "router";
     Router.Nodes := roster;
     Router.ForgetTimeout := 5000;
     Router.NodesFinder := firstThree |}.

(** The router built at instant 1000 on which "A" reported at 2000. *)
Definition routerAfterBeat : Router.Router :=
  (Router.Heartbeat
     {| Router.conf := routerCfg;
        Router.heartbeat := Router.seed 1000 roster ∅ |}
     "A" 2000).1.

(** A router on which "C" reported last at 1000, "A" and "B" after 9000. *)
Definition routerStale : Router.Router :=
  {| Router.conf := routerCfg;
     Router.heartbeat :=
       <["A" := 9000%Z]> (<["B" := 9500%Z]> (<["C" := 1000%Z]> ∅)) |}.

Definition hi : list Byte.byte := [Byte.x68; Byte.x69].
Definition x : list Byte.byte := [Byte.x78].
Definition y : list Byte.byte := [Byte.x79].

(** The key is held by "A" and "B" and by no other node; the nodes past
    "C" cannot be reached. *)
Definition nodes : NodeClient :=
  {| NC_Put := λ node _ _,
       if decide (node = "A" ∨ node = "B") then Some ErrRecordExists
       else if decide (node = "C") then None
       else Some (ErrTransport 0);
     NC_Del := λ node _,
       if decide (node = "A" ∨ node = "B") then None
       else if decide (node = "C") then Some ErrRecordNotFound
       else Some (ErrTransport 0);
     NC_Get := λ node _,
       if decide (node = "A" ∨ node = "B") then {| data := hi; err := None |}
       else if decide (node = "C")
            then {| data := []; err := Some ErrRecordNotFound |}
            else {| data := []; err := Some (ErrTransport 0) |} |}.

(** A Frontend whose Router answers [NodesFind] with [found]. *)
Definition frontend (found : list string) (finder : Router.NodesFinderI)
    : Frontend :=
  New {| Addr := "frontend";
         Router := "router";
         NC := nodes;
         RC := {| RC_NodesFind := λ _ _, Ok found |};
         NF := finder |}.

(** The replicas of a system with [ReplicationFactor] 4, of which "A" and
    "B" hold the key and "D" and "E" cannot be reached. *)
Definition four : list string := ["A"; "B"; "D"; "E"]%string.

(** [List] fails twice, then answers. *)
Definition listAnswers : list (result (list string)) :=
  [Fail (ErrTransport 0); Fail (ErrTransport 0); Ok roster].

(** The Frontend with placement function [finder] once [roster] is cached. *)
Definition cached (finder : Router.NodesFinderI) : Frontend :=
  {| conf := conf (frontend roster finder);
     initDone := true;
     routerNodes := roster |}.

End Scenario.

(* ===================================================================== *)
(** ** Histories of a node, and further quantities *)
(* ===================================================================== *)

Module Derived.
Import Storage.

(** The candidates [NodesFind] keeps: those of the placement whose last
    heartbeat is no older than the timeout at [now]. *)
Definition survivors (r : Router.Router) (k : RecordID) (now : Time.Time)
    : list ServiceAddr :=
  filter
    (λ node, (Time.Sub now (Router.lastBeat r node)
              ≤ Router.ForgetTimeout (Router.conf r))%Z)
    (Router.NodesFinder (Router.conf r) k (Router.Nodes (Router.conf r))).

(** The calls a [Node] serves. *)
Inductive call : Type :=
| CallPut (k : RecordID) (d : bytes)
| CallDel (k : RecordID)
| CallGet (k : RecordID).

(** The node after one call, whatever the call returned; [Get] only reads. *)
Definition serve (node : Node.Node) (c : call) : Node.Node :=
  match c with
  | CallPut k d => (Node.Put node k d).1
  | CallDel k => (Node.Del node k).1
  | CallGet _ => node
  end.

(** The node after a sequence of calls. *)
Definition serveAll (node : Node.Node) (calls : list call) : Node.Node :=
  fold_left serve calls node.

(** An answer to [Get] that carries the bytes [b]. *)
Definition bytesAnswer (b : bytes) : Frontend.GetResult :=
  {| Frontend.data := b; Frontend.err := None |}.

(** How many replicas answered with the error [e]. *)
Definition failedWith (e : Err) (results : list Frontend.GetResult) : nat :=
  length (filter (λ r, Frontend.err r = Some e) results).

(** The events of the retry loop when the answers [failed] come before the
    first one without error: a call and a sleep for each, then the call that
    succeeds. *)
Definition retryEvents (router : ServiceAddr)
    (failed : list (result (list ServiceAddr))) : list Frontend.event :=
  concat ((λ _, [Frontend.EvList router; Frontend.EvSleep]) <$> failed)
  ++ [Frontend.EvList router].

Definition isNodesFind (ev : Frontend.event) : Prop :=
  match ev with Frontend.EvNodesFind _ _ => True | _ => False end.

(** Order-independence of the Put/Del decision in the words of the
    specification: what is returned for a sequence of results is what is
    returned for every rearrangement of it. *)
Definition statedOrderIndependent (M : nat) : Prop :=
  ∀ results results' out out',
    results ≡ₚ results' →
    Quorum.decision M results out →
    Quorum.decision M results' out' →
    out = out'.

End Derived.

(* ===================================================================== *)
(** ** Further concrete systems *)
(* ===================================================================== *)

Module Cases.
Import Storage Frontend Scenario.

(** The router of the scenarios as [New] builds it at instant 1000. *)
Definition routerFresh : Router.Router :=
  {| Router.conf := routerCfg;
     Router.heartbeat := Router.seed 1000 roster ∅ |}.

(** The Frontend of the scenarios once it holds the roster [held]. *)
Definition cachedOn (held : list string) : Frontend :=
  {| conf := conf (frontend roster firstThree);
     initDone := true;
     routerNodes := held |}.

(** A node that holds the bytes [x] under key 7. *)
Definition nodeWith7 : Node.Node := (Node.Put Node.New 7 x).1.

End Cases.

(* ===================================================================== *)
(** * Properties *)
(* ===================================================================== *)

(** ** Durations *)

Section TimeFacts.
Import Time.

Lemma Sub_range (t u : Z) : (minDuration ≤ Sub t u ≤ maxDuration)%Z.
Proof.
  unfold Sub; cbv zeta.
  destruct (Z.ltb_spec (t - u) minDuration);
    [|destruct (Z.ltb_spec maxDuration (t - u))];
    unfold minDuration, maxDuration in *; lia.
Qed.

(** Below the largest duration, comparing the saturated difference with a
    timeout is comparing the exact difference with it. *)
Lemma Sub_le_exact (t u timeout : Z) :
  (minDuration ≤ timeout < maxDuration)%Z →
  (Sub t u ≤ timeout)%Z ↔ (t - u ≤ timeout)%Z.
Proof.
  intros ?. unfold Sub; cbv zeta.
  destruct (Z.ltb_spec (t - u) minDuration);
    [|destruct (Z.ltb_spec maxDuration (t - u))];
    unfold minDuration, maxDuration in *; lia.
Qed.
End TimeFacts.

(** ** Router *)

Section RouterFacts.
Import Storage Router.
Variable ReplicationFactor : nat.
Variable MinRedundancy : nat.

Implicit Types (r : Router) (cfg : Config) (node : ServiceAddr).
Implicit Types (hb : gmap string Z) (nodes : list string).

Lemma seed_lookup now nodes hb node :
  seed now nodes hb !! node =
    if decide (node ∈ nodes) then Some now else hb !! node.
Proof.
  revert hb. induction nodes as [|n nodes IH]; intros hb.
  - rewrite decide_False by apply not_elem_of_nil. done.
  - change (seed now (n :: nodes) hb) with (seed now nodes (<[n:=now]> hb)).
    rewrite IH.
    destruct (decide (node ∈ nodes)) as [Hin|Hnin].
    + rewrite decide_True; [done | by right].
    + destruct (decide (n = node)) as [->|Hne].
      * rewrite lookup_insert_eq, decide_True; [done | by left].
      * rewrite lookup_insert_ne by done.
        rewrite decide_False; [done|].
        intros [?|?]%elem_of_cons; congruence.
Qed.

Lemma seed_dom now nodes :
  dom (seed now nodes ∅) = (list_to_set nodes : gset string).
Proof.
  apply set_eq; intros node.
  rewrite elem_of_dom, seed_lookup, elem_of_list_to_set, lookup_empty.
  case_decide; split; intros H'; done.
Qed.

(** The loop of [NodesFind] filters the candidates, in their order. *)
Lemma findLoop_filter r now nodes found :
  findLoop r now nodes found =
    found ++ filter (λ node, alive r now node = true) nodes.
Proof.
  revert found. induction nodes as [|n nodes IH]; intros found; simpl.
  - by rewrite app_nil_r.
  - fold (findLoop r now nodes
            (if alive r now n then found ++ [n] else found)).
    rewrite IH, filter_cons. destruct (alive r now n) eqn:E.
    + rewrite decide_True by done. by rewrite <- app_assoc.
    + rewrite decide_False by congruence. done.
Qed.

Lemma alive_iff r now node :
  alive r now node = true ↔
  (Time.Sub now (lastBeat r node) ≤ ForgetTimeout (conf r))%Z.
Proof. unfold alive. apply Z.leb_le. Qed.

Lemma New_conf_dom cfg now r :
  New ReplicationFactor cfg now = Ok r →
  conf r = cfg ∧ dom (heartbeat r) = list_to_set (Nodes cfg).
Proof.
  unfold New. case_match; [done|]. intros [= <-]; simpl.
  split; [done | apply seed_dom].
Qed.

Lemma Heartbeat_conf r node now : conf (Heartbeat r node now).1 = conf r.
Proof. unfold Heartbeat. by case_match. Qed.

Lemma Heartbeat_dom r node now :
  dom (heartbeat (Heartbeat r node now).1) = dom (heartbeat r).
Proof.
  unfold Heartbeat. destruct (heartbeat r !! node) eqn:E; simpl; [|done].
  rewrite dom_insert_L. apply elem_of_dom_2 in E.
  apply set_eq; intros x. rewrite elem_of_union, elem_of_singleton.
  split; [intros [->|?]; done | by right].
Qed.

(** The invariant of the heartbeat table. *)
Lemma reachable_inv cfg r :
  reachable ReplicationFactor cfg r →
  conf r = cfg ∧ dom (heartbeat r) = list_to_set (Nodes cfg).
Proof.
  induction 1 as [now r Hnew | r node now Hr [IHc IHd]].
  - by apply (New_conf_dom _ now).
  - by rewrite Heartbeat_conf, Heartbeat_dom.
Qed.

(** C4.  For every key and every heartbeat table, [NodesFind] returns exactly
    the candidates chosen by the placement function for the roster whose
    last heartbeat is no older than [ForgetTimeout] at the one instant [now]
    read by the call, in placement order; it fails, with
    [ErrNotEnoughDaemons], exactly when fewer than [MinRedundancy] of them
    are left. *)
Theorem NodesFind_liveness_filter r (k : N) (now : Z) :
  let placed := NodesFinder (conf r) k (Nodes (conf r)) in
  let survivors :=
    filter (λ node,
      (Time.Sub now (lastBeat r node) ≤ ForgetTimeout (conf r))%Z) placed in
  NodesFind MinRedundancy r k now =
    (if decide (length survivors < MinRedundancy)
     then Fail ErrNotEnoughDaemons else Ok survivors)
  ∧ (NodesFind MinRedundancy r k now = Fail ErrNotEnoughDaemons
     ↔ length survivors < MinRedundancy)
  ∧ (∀ found, NodesFind MinRedundancy r k now = Ok found
     ↔ found = survivors ∧ MinRedundancy ≤ length survivors)
  ∧ (∀ e, NodesFind MinRedundancy r k now = Fail e → e = ErrNotEnoughDaemons)
  ∧ survivors `sublist_of` placed
  ∧ (∀ node, node ∈ survivors ↔
       node ∈ placed
       ∧ (Time.Sub now (lastBeat r node) ≤ ForgetTimeout (conf r))%Z)
  ∧ ((Time.minDuration ≤ ForgetTimeout (conf r) < Time.maxDuration)%Z →
     survivors =
       filter (λ node, (now - lastBeat r node ≤ ForgetTimeout (conf r))%Z)
         placed).
Proof.
  intros placed survivors.
  assert (Hloop : findLoop r now placed [] = survivors).
  { rewrite findLoop_filter. simpl. subst survivors.
    apply list_filter_iff. intros node. apply alive_iff. }
  assert (Heq : NodesFind MinRedundancy r k now =
    if decide (length survivors < MinRedundancy)
    then Fail ErrNotEnoughDaemons else Ok survivors).
  { unfold NodesFind. fold placed. rewrite Hloop.
    destruct (Nat.ltb_spec (length survivors) MinRedundancy).
    - by rewrite decide_True.
    - rewrite decide_False by lia. done. }
  split; [exact Heq|]. rewrite Heq.
  split; [|split; [|split; [|split; [|split]]]].
  - case_decide; split; (done || discriminate).
  - intros found. case_decide; split.
    + discriminate.
    + intros [_ ?]. lia.
    + intros [= <-]. split; [done | lia].
    + by intros [-> _].
  - intros e. case_decide; congruence.
  - apply sublist_filter.
  - intros node. unfold survivors. rewrite list_elem_of_filter. tauto.
  - intros Hrange. unfold survivors. apply list_filter_iff.
    intros node. by apply Sub_le_exact.
Qed.

(** C5.  [New] fails, with [ErrNotEnoughDaemons], exactly when the roster has
    fewer than [ReplicationFactor] nodes; otherwise it returns a router
    holding the configuration whose heartbeat table has the value [now] at
    every node of the roster and no other key. *)
Theorem New_seeds_roster cfg (now : Z) :
  (New ReplicationFactor cfg now = Fail ErrNotEnoughDaemons
   ↔ length (Nodes cfg) < ReplicationFactor)
  ∧ (∀ e, New ReplicationFactor cfg now = Fail e → e = ErrNotEnoughDaemons)
  ∧ ((∃ r, New ReplicationFactor cfg now = Ok r)
     ↔ ReplicationFactor ≤ length (Nodes cfg))
  ∧ (∀ r, New ReplicationFactor cfg now = Ok r →
       conf r = cfg
       ∧ dom (heartbeat r) = list_to_set (Nodes cfg)
       ∧ ∀ node, heartbeat r !! node =
                   if decide (node ∈ Nodes cfg) then Some now else None).
Proof.
  unfold New.
  destruct (Nat.ltb_spec (length (Nodes cfg)) ReplicationFactor) as [Hlt|Hge].
  - split; [done|]. split; [by intros ? [= <-]|].
    split; [|done]. split; [intros [? ?]; discriminate | lia].
  - split; [split; [discriminate | lia]|].
    split; [discriminate|].
    split; [split; [done | intros _; by eexists]|].
    intros r [= <-]. simpl. split; [done|]. split; [apply seed_dom|].
    intros node. by rewrite seed_lookup, lookup_empty.
Qed.

(** C6.  On any router reached from [New] by heartbeats the table covers
    exactly the roster.  There [Heartbeat] fails, with [ErrUnknownDaemon],
    exactly when the node is not in the roster, and then changes nothing;
    otherwise it returns no error, stores [now] at the node, leaves every
    other entry, the key set and the configuration as they were. *)
Theorem Heartbeat_roster cfg r node (now : Z) :
  reachable ReplicationFactor cfg r →
  dom (heartbeat r) = list_to_set (Nodes cfg)
  ∧ ((Heartbeat r node now).2 = Some ErrUnknownDaemon ↔ node ∉ Nodes cfg)
  ∧ (∀ e, (Heartbeat r node now).2 = Some e → e = ErrUnknownDaemon)
  ∧ (node ∉ Nodes cfg → (Heartbeat r node now).1 = r)
  ∧ (node ∈ Nodes cfg →
       (Heartbeat r node now).2 = None
       ∧ heartbeat (Heartbeat r node now).1 !! node = Some now
       ∧ (∀ other, other ≠ node →
            heartbeat (Heartbeat r node now).1 !! other
            = heartbeat r !! other))
  ∧ conf (Heartbeat r node now).1 = conf r
  ∧ dom (heartbeat (Heartbeat r node now).1) = list_to_set (Nodes cfg).
Proof.
  intros Hreach. destruct (reachable_inv _ _ Hreach) as [Hconf Hdom].
  assert (Hin : is_Some (heartbeat r !! node) ↔ node ∈ Nodes cfg).
  { rewrite <- elem_of_dom, Hdom. apply elem_of_list_to_set. }
  split; [done|].
  split; [|split; [|split; [|split; [|split]]]].
  - unfold Heartbeat. destruct (heartbeat r !! node) eqn:E; simpl.
    + split; [done|]. intros Hn. destruct Hn. apply Hin. by eexists.
    + split; [|done]. intros _ [? ?]%Hin. discriminate.
  - unfold Heartbeat. case_match; simpl; congruence.
  - intros Hn. unfold Heartbeat. destruct (heartbeat r !! node) eqn:E; [|done].
    destruct Hn. apply Hin. by eexists.
  - intros [t Ht]%Hin. unfold Heartbeat. rewrite Ht. simpl.
    split; [done|]. split.
    + apply lookup_insert_eq.
    + intros other Hne. by apply lookup_insert_ne.
  - apply Heartbeat_conf.
  - by rewrite Heartbeat_dom.
Qed.

End RouterFacts.

(** ** Node *)

Section NodeFacts.
Import Storage Node.

(** C8.  [Put] returns [ErrRecordExists] exactly when the key holds a record,
    and then the record map, the bytes under the key included, is what it
    was; on a free key it returns no error, stores the bytes under the key
    and changes no other key. *)
Theorem Put_immutable (node : Node) (k : N) (d : list byte) :
  ((Put node k d).2 = Some ErrRecordExists ↔ is_Some (storage node !! k))
  ∧ (∀ e, (Put node k d).2 = Some e → e = ErrRecordExists)
  ∧ (∀ old, storage node !! k = Some old →
       (Put node k d).1 = node
       ∧ storage (Put node k d).1 !! k = Some old)
  ∧ (storage node !! k = None →
       (Put node k d).2 = None
       ∧ storage (Put node k d).1 !! k = Some d
       ∧ ∀ k', k' ≠ k →
           storage (Put node k d).1 !! k' = storage node !! k').
Proof.
  unfold Put. destruct (storage node !! k) as [old|] eqn:E; simpl.
  - split; [split; [by eexists | done]|].
    split; [by intros ? [= <-]|]. split; [|done].
    intros ? [= <-]. done.
  - split; [split; [done | by intros [? ?]]|].
    split; [done|]. split; [done|]. intros _.
    split; [done|]. split; [apply lookup_insert_eq|].
    intros k' Hne. by apply lookup_insert_ne.
Qed.

End NodeFacts.

(** ** Frontend: the tallies of Put and Del *)

Section TallyFacts.
Import Storage Frontend Quorum.
Variable MinRedundancy : nat.

Implicit Types (results : list (option Err)) (t : Tally) (e : Err).
Implicit Types (order : list (Err * nat)).

Lemma counter_incr `{Countable K} (m : gmap K nat) (k k' : K) :
  counter (incr k m) k' =
    if decide (k = k') then S (counter m k') else counter m k'.
Proof.
  unfold counter, incr. case_decide as Hk.
  - subst. by rewrite lookup_insert_eq.
  - by rewrite lookup_insert_ne.
Qed.

Lemma collect_app results rest t :
  collect (length results) (results ++ rest) t
  = Some (fold_left tallyStep results t, rest).
Proof.
  revert t. induction results as [|r results IH]; intros t; simpl; [done|].
  apply IH.
Qed.

(** The loop reads every result before the decision is taken. *)
Lemma collect_all results t :
  collect (length results) results t
  = Some (fold_left tallyStep results t, []).
Proof.
  rewrite <- (app_nil_r results) at 2. apply collect_app.
Qed.

Lemma successes_snoc results r :
  successes (results ++ [r]) =
    successes results + (if decide (r = None) then 1 else 0).
Proof.
  unfold successes. rewrite filter_app, length_app, filter_cons, filter_nil.
  by case_decide.
Qed.

Lemma reports_snoc e results r :
  reports e (results ++ [r]) =
    reports e results + (if decide (r = Some e) then 1 else 0).
Proof.
  unfold reports. rewrite filter_app, length_app, filter_cons, filter_nil.
  by case_decide.
Qed.

(** What the two tallies hold after the loop: the number of successes, and
    for each error kind met its number of reports, no key for the others. *)
Lemma tallyAll_spec results :
  okCount (tallyAll results) = successes results
  ∧ ∀ e, errCounts (tallyAll results) !! e =
           if decide (reports e results = 0) then None
           else Some (reports e results).
Proof.
  induction results as [|r results [IHok IHerr]] using rev_ind.
  - split; [done|]. intros e. unfold tally0; simpl. by rewrite lookup_empty.
  - rewrite fold_left_app. simpl. destruct r as [e'|]; simpl.
    + split.
      * rewrite successes_snoc, decide_False by done. lia.
      * intros e. rewrite reports_snoc. unfold incr, counter.
        destruct (decide (e' = e)) as [->|Hne].
        -- rewrite lookup_insert_eq, IHerr.
           rewrite (decide_True (P := Some e = Some e)) by done.
           rewrite (decide_False (P := reports e results + 1 = 0)) by lia.
           case_decide as Hz; simpl; f_equal; lia.
        -- rewrite lookup_insert_ne, IHerr by done.
           rewrite (decide_False (P := Some e' = Some e)) by congruence.
           rewrite Nat.add_0_r. done.
    + split.
      * rewrite successes_snoc, decide_True by done. lia.
      * intros e. rewrite reports_snoc.
        rewrite (decide_False (P := None = Some e)) by done.
        rewrite Nat.add_0_r. apply IHerr.
Qed.

Lemma successes_perm results results' :
  results ≡ₚ results' → successes results = successes results'.
Proof. intros Hp. unfold successes. by rewrite Hp. Qed.

Lemma reports_perm e results results' :
  results ≡ₚ results' → reports e results = reports e results'.
Proof. intros Hp. unfold reports. by rewrite Hp. Qed.

(** The tallies do not depend on the order of arrival. *)
Lemma tallyAll_perm results results' :
  results ≡ₚ results' → tallyAll results' = tallyAll results.
Proof.
  intros Hp.
  destruct (tallyAll_spec results) as [Hok Herr].
  destruct (tallyAll_spec results') as [Hok' Herr'].
  destruct (tallyAll results) as [ok errs], (tallyAll results') as [ok' errs'].
  simpl in *. f_equal.
  - rewrite Hok, Hok'. symmetry. by apply successes_perm.
  - apply map_eq. intros e.
    rewrite Herr, Herr', (reports_perm e _ _ Hp). done.
Qed.

Lemma firstQuorum_Some order e :
  firstQuorum MinRedundancy order = Some e →
  ∃ count, (e, count) ∈ order ∧ MinRedundancy ≤ count.
Proof.
  induction order as [|[e' c] order IH]; simpl; [done|].
  destruct (Nat.leb_spec MinRedundancy c).
  - intros [= <-]. exists c. split; [by left | done].
  - intros (count & ? & ?)%IH. exists count. split; [by right | done].
Qed.

Lemma firstQuorum_None order :
  firstQuorum MinRedundancy order = None →
  ∀ e count, (e, count) ∈ order → count < MinRedundancy.
Proof.
  induction order as [|[e' c] order IH]; simpl.
  - intros _ e count Hin. by apply elem_of_nil in Hin.
  - destruct (Nat.leb_spec MinRedundancy c); [done|].
    intros Hnone e count [[= -> ->]|Hin]%elem_of_cons; [done|].
    by apply (IH Hnone e).
Qed.

(** An entry of the map in any visiting order is a kind with its number of
    reports. *)
Lemma order_entry results order e count :
  order ≡ₚ map_to_list (errCounts (tallyAll results)) →
  (e, count) ∈ order ↔ count = reports e results ∧ 0 < count.
Proof.
  intros Hp. rewrite Hp, elem_of_map_to_list.
  destruct (tallyAll_spec results) as [_ Herr]. rewrite Herr.
  case_decide; split.
  - done.
  - intros [-> ?]. lia.
  - intros [= <-]. split; [done | lia].
  - by intros [-> ?].
Qed.

(** Whatever the visiting order, the decision is the one of
    [quorumOutcome]. *)
Lemma resolve_quorumOutcome results order :
  order ≡ₚ map_to_list (errCounts (tallyAll results)) →
  quorumOutcome MinRedundancy results
    (resolve MinRedundancy (tallyAll results) order).
Proof.
  intros Hp. unfold resolve.
  destruct (tallyAll_spec results) as [Hok _]. rewrite Hok.
  destruct (Nat.leb_spec MinRedundancy (successes results)) as [Hge|Hlt].
  { split; [done|]. split; intros; lia. }
  split; [intros; lia|].
  destruct (firstQuorum MinRedundancy order) as [e|] eqn:Hfq.
  - apply firstQuorum_Some in Hfq as (count & Hin & Hcount).
    apply (order_entry results) in Hin as [-> _]; [|done].
    split.
    + intros _ _. by exists e.
    + intros _ Hall. specialize (Hall e). lia.
  - pose proof (firstQuorum_None _ Hfq) as Hnone. split; [|done].
    intros _ [e He].
    assert (Hin : (e, reports e results) ∈ order).
    { apply (order_entry results); [done|]. split; [done|].
      destruct MinRedundancy; [|lia]. lia. }
    apply Hnone in Hin. lia.
Qed.

Lemma decision_inv results out :
  decision MinRedundancy results out ↔
  ∃ order, order ≡ₚ map_to_list (errCounts (tallyAll results))
           ∧ out = resolve MinRedundancy (tallyAll results) order.
Proof.
  unfold decision. split.
  - intros (t & rest & order & Hc & Hp & ->).
    rewrite collect_all in Hc. injection Hc as <- <-. by exists order.
  - intros (order & Hp & ->).
    exists (tallyAll results), [], order. by rewrite collect_all.
Qed.

Lemma decision_perm results results' out :
  results ≡ₚ results' →
  decision MinRedundancy results out ↔ decision MinRedundancy results' out.
Proof. intros Hp. by rewrite !decision_inv, (tallyAll_perm _ _ Hp). Qed.

Lemma decision_exists results : ∃ out, decision MinRedundancy results out.
Proof.
  eexists. apply decision_inv. eexists. split; [reflexivity|done].
Qed.

Lemma quorumOutcome_perm results results' out :
  results ≡ₚ results' →
  quorumOutcome MinRedundancy results out →
  quorumOutcome MinRedundancy results' out.
Proof.
  intros Hp (H1 & H2 & H3). unfold quorumOutcome.
  rewrite <- (successes_perm _ _ Hp).
  split; [done|]. split.
  - intros Hlt [e He]. rewrite <- (reports_perm e _ _ Hp) in He.
    destruct (H2 Hlt (ex_intro _ e He)) as (e' & -> & He').
    exists e'. by rewrite <- (reports_perm e' _ _ Hp).
  - intros Hlt Hall. apply H3; [done|].
    intros e. rewrite (reports_perm e _ _ Hp). apply Hall.
Qed.

End TallyFacts.

(** ** Frontend: Put and Del *)

Section PutDelFacts.
Import Storage Frontend Quorum.
Variable MinRedundancy : nat.

Implicit Types (fe : Frontend) (k : N) (method : string → option Err).
Implicit Types (results : list (option Err)) (nodes : list string).

(** Two different kinds cannot both be reported more often than the
    results are long. *)
Lemma reports_disjoint e e' results :
  e ≠ e' → reports e results + reports e' results ≤ length results.
Proof.
  intros Hne. unfold reports.
  induction results as [|r results IH]; simpl; [done|].
  rewrite !filter_cons.
  destruct (decide (r = Some e)) as [->|?].
  - rewrite decide_False by congruence. simpl. lia.
  - case_decide; simpl; lia.
Qed.

(** With fewer than [2 * MinRedundancy] results the decision is the stated
    one: at most one kind can have [MinRedundancy] reports. *)
Lemma quorumOutcome_stated results out :
  length results < 2 * MinRedundancy →
  quorumOutcome MinRedundancy results out →
  statedOutcome MinRedundancy results out.
Proof.
  intros Hlen (H1 & H2 & H3). split; [done|]. split; [|done].
  intros Hlt e He.
  destruct (H2 Hlt (ex_intro _ e He)) as (e' & -> & He').
  destruct (decide (e' = e)) as [->|Hne]; [done|].
  pose proof (reports_disjoint e' e results Hne). lia.
Qed.

(** When a single kind has [MinRedundancy] reports, it is the result. *)
Lemma quorumOutcome_sole results out e :
  quorumOutcome MinRedundancy results out →
  successes results < MinRedundancy →
  MinRedundancy ≤ reports e results →
  (∀ e', MinRedundancy ≤ reports e' results → e' = e) →
  out = Some e.
Proof.
  intros (_ & H2 & _) Hlt He Hsole.
  destruct (H2 Hlt (ex_intro _ e He)) as (e' & -> & He').
  by rewrite (Hsole e' He').
Qed.

(** A run that gets [MinRedundancy] nodes or more from the Router is a
    fan-out run. *)
Lemma applyPutDel_fanout_inv fe k method nodes evs out :
  RC_NodesFind (RC (conf fe)) (Router (conf fe)) k = Ok nodes →
  MinRedundancy ≤ length nodes →
  applyPutDel MinRedundancy fe k method evs out →
  evs = EvNodesFind (Router (conf fe)) k :: (EvMethod <$> nodes)
  ∧ ∃ results, results ≡ₚ method <$> nodes
               ∧ decision MinRedundancy results out.
Proof.
  intros Hrc Hlen Hrun.
  destruct Hrun as [e He | nodes' Hn Hfew | nodes' results t rest order
                                             Hn _ Hperm Hcollect Horder].
  - congruence.
  - rewrite Hrc in Hn. injection Hn as <-. lia.
  - rewrite Hrc in Hn. injection Hn as <-.
    split; [done|]. exists results. split; [done|].
    exists t, rest, order.
    rewrite (Permutation_length Hperm), length_fmap. done.
Qed.

(** Every call of [applyPutDel] returns. *)
Lemma applyPutDel_total fe k method :
  ∃ evs out, applyPutDel MinRedundancy fe k method evs out.
Proof.
  destruct (RC_NodesFind (RC (conf fe)) (Router (conf fe)) k)
    as [nodes|e] eqn:Hrc.
  - destruct (decide (length nodes < MinRedundancy)) as [Hfew|Hge].
    + eexists _, _. by eapply applyPutDel_few.
    + eexists _, _.
      eapply (applyPutDel_fanout _ _ _ _ nodes (method <$> nodes));
        [done | done | done | | reflexivity].
      rewrite <- (length_fmap method nodes). apply collect_all.
  - eexists _, _. by eapply applyPutDel_router_err.
Qed.

Lemma applyPutDel_quorumOutcome fe k method nodes evs out :
  RC_NodesFind (RC (conf fe)) (Router (conf fe)) k = Ok nodes →
  MinRedundancy ≤ length nodes →
  applyPutDel MinRedundancy fe k method evs out →
  quorumOutcome MinRedundancy (method <$> nodes) out.
Proof.
  intros Hrc Hlen Hrun.
  destruct (applyPutDel_fanout_inv _ _ _ _ _ _ Hrc Hlen Hrun)
    as (_ & results & Hperm & Hdec).
  apply (quorumOutcome_perm _ results); [done|].
  apply decision_inv in Hdec as (order & Horder & ->).
  by apply resolve_quorumOutcome.
Qed.

(** C1, as the code has it.  When the Router returns [MinRedundancy] nodes
    or more, [Put] and [Del] return, and return success if [MinRedundancy]
    nodes reported success; otherwise, if a kind of error was reported by
    [MinRedundancy] nodes, an error kind that was reported by
    [MinRedundancy] nodes, which is the kind [e] when no other kind was
    reported that often; otherwise [ErrQuorumNotReached].  With fewer than
    [2 * MinRedundancy] nodes only one kind can be reported that often, and
    the decision is the one stated for every such kind. *)
Theorem PutDel_quorum fe k nodes :
  RC_NodesFind (RC (conf fe)) (Router (conf fe)) k = Ok nodes →
  MinRedundancy ≤ length nodes →
  ∀ d,
    let puts := (λ node, NC_Put (NC (conf fe)) node k d) <$> nodes in
    let dels := (λ node, NC_Del (NC (conf fe)) node k) <$> nodes in
    (∃ evs out, Put MinRedundancy fe k d evs out)
    ∧ (∃ evs out, Del MinRedundancy fe k evs out)
    ∧ (∀ evs out, Put MinRedundancy fe k d evs out →
         quorumOutcome MinRedundancy puts out
         ∧ (∀ e, successes puts < MinRedundancy →
                 MinRedundancy ≤ reports e puts →
                 (∀ e', MinRedundancy ≤ reports e' puts → e' = e) →
                 out = Some e)
         ∧ (length nodes < 2 * MinRedundancy →
            statedOutcome MinRedundancy puts out))
    ∧ (∀ evs out, Del MinRedundancy fe k evs out →
         quorumOutcome MinRedundancy dels out
         ∧ (∀ e, successes dels < MinRedundancy →
                 MinRedundancy ≤ reports e dels →
                 (∀ e', MinRedundancy ≤ reports e' dels → e' = e) →
                 out = Some e)
         ∧ (length nodes < 2 * MinRedundancy →
            statedOutcome MinRedundancy dels out)).
Proof.
  intros Hrc Hlen d puts dels.
  split; [apply applyPutDel_total|]. split; [apply applyPutDel_total|].
  split; intros evs out Hrun;
    pose proof (applyPutDel_quorumOutcome _ _ _ _ _ _ Hrc Hlen Hrun) as Hq;
    (split; [exact Hq|]);
    (split; [intros e; by apply quorumOutcome_sole|]); intros H2M;
    (apply quorumOutcome_stated; [|exact Hq]);
    unfold puts, dels; by rewrite length_fmap.
Qed.

Lemma applyPutDel_early fe k method evs out :
  applyPutDel MinRedundancy fe k method evs out →
  (∀ e, RC_NodesFind (RC (conf fe)) (Router (conf fe)) k = Fail e →
        out = Some e ∧ evs = [EvNodesFind (Router (conf fe)) k])
  ∧ (∀ nodes, RC_NodesFind (RC (conf fe)) (Router (conf fe)) k = Ok nodes →
              length nodes < MinRedundancy →
              out = Some ErrNotEnoughDaemons
              ∧ evs = [EvNodesFind (Router (conf fe)) k]).
Proof.
  intros Hrun.
  destruct Hrun as [e' He | nodes' Hn Hfew | nodes' ? ? ? ? Hn Hge].
  - split; [|intros; congruence].
    intros e Hrc. rewrite Hrc in He. by injection He as <-.
  - split; [intros; congruence | done].
  - split; [intros; congruence|].
    intros nodes Hrc Hfew. rewrite Hrc in Hn. injection Hn as <-. lia.
Qed.

(** C7.  When the Router's [NodesFind] fails, [Put] and [Del] return its
    error as it is, and when it returns fewer than [MinRedundancy] nodes
    they return [ErrNotEnoughDaemons]; in both cases the only event is the
    call to the Router: no method is called on any node. *)
Theorem PutDel_router_failure fe k (d : list byte) :
  (∃ evs out, Put MinRedundancy fe k d evs out)
  ∧ (∃ evs out, Del MinRedundancy fe k evs out)
  ∧ (∀ e evs out,
       RC_NodesFind (RC (conf fe)) (Router (conf fe)) k = Fail e →
       Put MinRedundancy fe k d evs out ∨ Del MinRedundancy fe k evs out →
       out = Some e
       ∧ evs = [EvNodesFind (Router (conf fe)) k]
       ∧ Forall (λ ev, ¬ isNodeCall ev) evs)
  ∧ (∀ nodes evs out,
       RC_NodesFind (RC (conf fe)) (Router (conf fe)) k = Ok nodes →
       length nodes < MinRedundancy →
       Put MinRedundancy fe k d evs out ∨ Del MinRedundancy fe k evs out →
       out = Some ErrNotEnoughDaemons
       ∧ evs = [EvNodesFind (Router (conf fe)) k]
       ∧ Forall (λ ev, ¬ isNodeCall ev) evs).
Proof.
  split; [apply applyPutDel_total|]. split; [apply applyPutDel_total|].
  split.
  - intros e evs out Hrc [Hrun|Hrun];
      destruct (applyPutDel_early _ _ _ _ _ Hrun) as [Herr _];
      destruct (Herr e Hrc) as [-> ->];
      (split; [done|]); (split; [done|]);
      repeat constructor; by intros [].
  - intros nodes evs out Hrc Hfew [Hrun|Hrun];
      destruct (applyPutDel_early _ _ _ _ _ Hrun) as [_ Hshort];
      destruct (Hshort nodes Hrc Hfew) as [-> ->];
      (split; [done|]); (split; [done|]);
      repeat constructor; by intros [].
Qed.

(** C3, as the code has it.  The loop of [applyPutDel] reads all the results
    before anything is decided, and the order in which they arrive does not
    matter to the tallies: they are the same for a rearranged sequence, so
    is the decision taken from them for any order in which the map is
    visited, and so are the outcomes the call can have.  The outcome itself
    is the same with fewer than [2 * MinRedundancy] results; from that
    length on two kinds of error can both have [MinRedundancy] reports, and
    which one comes back is the map's choice, not the arrival order's. *)
Theorem applyPutDel_order_independent results results' :
  results ≡ₚ results' →
  collect (length results) results tally0
    = Some (fold_left tallyStep results tally0, [])
  ∧ fold_left tallyStep results' tally0 = fold_left tallyStep results tally0
  ∧ (∀ order,
       resolve MinRedundancy (fold_left tallyStep results' tally0) order
       = resolve MinRedundancy (fold_left tallyStep results tally0) order)
  ∧ (∀ out, decision MinRedundancy results out
            ↔ decision MinRedundancy results' out)
  ∧ (∀ fe k method nodes evs out,
       RC_NodesFind (RC (conf fe)) (Router (conf fe)) k = Ok nodes →
       MinRedundancy ≤ length nodes →
       results ≡ₚ method <$> nodes →
       applyPutDel MinRedundancy fe k method evs out →
       decision MinRedundancy results out
       ∧ decision MinRedundancy results' out)
  ∧ (length results < 2 * MinRedundancy →
     ∀ out out', decision MinRedundancy results out →
                 decision MinRedundancy results' out' → out = out').
Proof.
  intros Hperm. pose proof (tallyAll_perm _ _ Hperm) as Htally.
  split; [apply collect_all|]. split; [done|].
  split; [intros order; by rewrite Htally|].
  assert (Hiff : ∀ out, decision MinRedundancy results out
                        ↔ decision MinRedundancy results' out).
  { intros out. by apply decision_perm. }
  split; [done|]. split.
  { intros fe k method nodes evs out Hrc Hlen Hres Hrun.
    destruct (applyPutDel_fanout_inv _ _ _ _ _ _ Hrc Hlen Hrun)
      as (_ & arrived & Harr & Hdec).
    assert (decision MinRedundancy results out) as Hd.
    { apply (decision_perm _ arrived); [|done]. by rewrite Harr, Hres. }
    split; [done | by apply Hiff]. }
  intros H2M out out' Hd Hd'. apply Hiff in Hd'.
  apply decision_inv in Hd as (order & Ho & ->).
  apply decision_inv in Hd' as (order' & Ho' & ->).
  pose proof (resolve_quorumOutcome MinRedundancy _ _ Ho) as Hq.
  pose proof (resolve_quorumOutcome MinRedundancy _ _ Ho') as Hq'.
  apply quorumOutcome_stated in Hq as (A1 & A2 & A3); [|done].
  apply quorumOutcome_stated in Hq' as (B1 & B2 & B3); [|done].
  destruct (decide (MinRedundancy ≤ successes results)) as [Hok|Hno].
  { by rewrite A1, B1. }
  destruct (firstQuorum MinRedundancy order) as [e|] eqn:Hfq.
  - apply firstQuorum_Some in Hfq as (count & Hin & Hcount).
    apply (order_entry results) in Hin as [-> _]; [|done].
    rewrite (A2 ltac:(lia) e Hcount), (B2 ltac:(lia) e Hcount). done.
  - assert (Hall : ∀ e, reports e results < MinRedundancy).
    { intros e.
      destruct (decide (reports e results < MinRedundancy)); [done|].
      assert (Hin : (e, reports e results) ∈ order).
      { apply (order_entry results); [done|]. split; [done | lia]. }
      apply (firstQuorum_None _ _ Hfq) in Hin. lia. }
    rewrite (A3 ltac:(lia) Hall), (B3 ltac:(lia) Hall). done.
Qed.

End PutDelFacts.

(** ** Frontend: the collecting loop of Get *)

Section GetLoopFacts.
Import Storage Frontend Quorum.
Variable MinRedundancy : nat.

Implicit Types (r : GetResult) (results pre : list GetResult).
Implicit Types (dataCounts : gmap string nat) (errCounts : gmap Err nat).

(** [string(data)] tells byte sequences apart. *)
Lemma dataKey_inj r r' : dataKey r = dataKey r' ↔ data r = data r'.
Proof.
  unfold dataKey. split; [|by intros ->].
  intros Heq.
  rewrite <- (String.list_byte_of_string_of_list_byte (data r)),
          <- (String.list_byte_of_string_of_list_byte (data r')).
  by rewrite Heq.
Qed.

Lemma sameAnswer_refl r : sameAnswer r r.
Proof. unfold sameAnswer. by destruct (err r). Qed.

Lemma sameAnswer_err r' r e :
  err r = Some e → sameAnswer r' r ↔ err r' = Some e.
Proof.
  intros Er. unfold sameAnswer. rewrite Er.
  destruct (err r'); [|done]. split; congruence.
Qed.

Lemma sameAnswer_data r' r :
  err r = None → sameAnswer r' r ↔ err r' = None ∧ data r' = data r.
Proof.
  intros Er. unfold sameAnswer. rewrite Er.
  destruct (err r'); [|tauto]. split; [done | by intros [? _]].
Qed.

Lemma agreeing_snoc r pre r' :
  agreeing r (pre ++ [r']) =
    agreeing r pre + (if decide (sameAnswer r r') then 1 else 0).
Proof.
  unfold agreeing. rewrite filter_app, length_app, filter_cons, filter_nil.
  by case_decide.
Qed.

Lemma agreeing_le r results : agreeing r results ≤ length results.
Proof. unfold agreeing. apply length_filter. Qed.

Lemma agreeing_app_le r pre post :
  agreeing r pre ≤ agreeing r (pre ++ post).
Proof. unfold agreeing. rewrite filter_app, length_app. lia. Qed.

Lemma counted_empty : counted [] ∅ ∅.
Proof. intros r. by destruct (err r). Qed.

Lemma counted_snoc pre dataCounts errCounts r :
  counted pre dataCounts errCounts →
  counted (pre ++ [r])
    (match err r with
     | Some _ => dataCounts
     | None => incr (dataKey r) dataCounts
     end)
    (match err r with
     | Some e => incr e errCounts
     | None => errCounts
     end).
Proof.
  intros Hc r2. specialize (Hc r2). rewrite agreeing_snoc.
  destruct (err r) as [e|] eqn:Er, (err r2) as [e2|] eqn:Er2.
  - rewrite counter_incr, Hc, (decide_ext _ _ _ _ (sameAnswer_err r2 r e Er)).
    rewrite Er2. destruct (decide (e = e2)) as [->|?].
    + rewrite decide_True by done. lia.
    + rewrite decide_False by congruence. lia.
  - rewrite Hc, (decide_ext _ _ _ _ (sameAnswer_err r2 r e Er)), Er2.
    rewrite decide_False by done. lia.
  - rewrite Hc, (decide_ext _ _ _ _ (sameAnswer_data r2 r Er)), Er2.
    rewrite decide_False by (intros [? _]; done). lia.
  - rewrite counter_incr, Hc, (decide_ext _ _ _ _ (sameAnswer_data r2 r Er)).
    destruct (decide (dataKey r = dataKey r2)) as [Hk|Hk].
    + apply dataKey_inj in Hk. rewrite decide_True by done. lia.
    + rewrite decide_False; [lia|]. intros [_ Hd]. apply Hk.
      by apply dataKey_inj.
Qed.

Lemma neverAtQuorum_nil : neverAtQuorum MinRedundancy [].
Proof. intros pre r post H'. by destruct pre. Qed.

Lemma neverAtQuorum_snoc pre r :
  neverAtQuorum MinRedundancy pre →
  agreeing r (pre ++ [r]) < MinRedundancy →
  neverAtQuorum MinRedundancy (pre ++ [r]).
Proof.
  intros Hnever Hr p r' post Heq.
  destruct post as [|x post _] using rev_ind.
  - apply app_inj_tail in Heq as [<- <-]. done.
  - rewrite app_comm_cons, app_assoc in Heq.
    apply app_inj_tail in Heq as [-> _]. by eapply Hnever.
Qed.

(** The loop, started after the answers [pre] that brought no counter to
    [MinRedundancy], returns: either the winner of the first answer that
    brings its counter there, or [ErrQuorumNotReached] when none does. *)
Lemma collectGet_from pre results dataCounts errCounts :
  counted pre dataCounts errCounts →
  neverAtQuorum MinRedundancy pre →
  ∃ out,
    collectGet MinRedundancy (length results) results dataCounts errCounts
      = Some out
    ∧ ((∃ mid r post,
          results = mid ++ r :: post
          ∧ firstAtQuorum MinRedundancy (pre ++ mid) r
          ∧ out = winner r)
       ∨ (neverAtQuorum MinRedundancy (pre ++ results)
          ∧ out = quorumNotReached)).
Proof.
  revert pre dataCounts errCounts.
  induction results as [|r results IH]; intros pre dataCounts errCounts Hc Hn.
  - eexists. split; [done|]. right. by rewrite app_nil_r.
  - pose proof (counted_snoc _ _ _ r Hc) as Hc'.
    pose proof (Hc' r) as Hr. simpl.
    assert (Hstep :
      (agreeing r (pre ++ [r]) < MinRedundancy →
       ∃ out',
         collectGet MinRedundancy (length results) results
           (match err r with
            | Some _ => dataCounts | None => incr (dataKey r) dataCounts
            end)
           (match err r with
            | Some e => incr e errCounts | None => errCounts
            end) = Some out'
         ∧ ((∃ mid r' post,
               r :: results = mid ++ r' :: post
               ∧ firstAtQuorum MinRedundancy (pre ++ mid) r'
               ∧ out' = winner r')
            ∨ (neverAtQuorum MinRedundancy (pre ++ r :: results)
               ∧ out' = quorumNotReached)))).
    { intros Hlt.
      destruct (IH (pre ++ [r]) _ _ Hc' (neverAtQuorum_snoc _ _ Hn Hlt))
        as (out' & Hrun & Hout).
      exists out'. split; [done|].
      destruct Hout as [(mid & r' & post & -> & Hfirst & ->)|[Hnever ->]].
      - left. exists (r :: mid), r', post. split; [done|].
        rewrite <- app_assoc in Hfirst. done.
      - right. rewrite <- app_assoc in Hnever. done. }
    unfold winner. destruct (err r) as [e|] eqn:Er.
    + rewrite Hr.
      destruct (Nat.leb_spec MinRedundancy (agreeing r (pre ++ [r])))
        as [Hge|Hlt].
      * eexists. split; [done|]. left. exists [], r, results.
        rewrite app_nil_r. unfold winner. rewrite Er. done.
      * by apply Hstep.
    + rewrite Hr.
      destruct (Nat.leb_spec MinRedundancy (agreeing r (pre ++ [r])))
        as [Hge|Hlt].
      * eexists. split; [done|]. left. exists [], r, results.
        rewrite app_nil_r. unfold winner. rewrite Er. done.
      * by apply Hstep.
Qed.

Lemma replied_agreeing r results :
  err r = None → replied (data r) results = agreeing r results.
Proof.
  intros Er. unfold replied, agreeing. f_equal.
  apply list_filter_iff. intros r'. unfold sameAnswer. rewrite Er.
  destruct (err r'); [|split; [by intros [_ ->] | done]].
  split; [by intros [? _] | done].
Qed.

Lemma replied_perm b results results' :
  results ≡ₚ results' → replied b results = replied b results'.
Proof. intros Hp. unfold replied. by rewrite Hp. Qed.

(** The loop run on all the answers, from empty maps. *)
Lemma collectGet_spec results :
  ∃ out,
    collectGet MinRedundancy (length results) results ∅ ∅ = Some out
    ∧ ((∃ before r after,
          results = before ++ r :: after
          ∧ firstAtQuorum MinRedundancy before r
          ∧ out = winner r)
       ∨ (neverAtQuorum MinRedundancy results ∧ out = quorumNotReached))
    ∧ (err out = None → MinRedundancy ≤ replied (data out) results).
Proof.
  destruct (collectGet_from [] results ∅ ∅ counted_empty neverAtQuorum_nil)
    as (out & Hrun & Hout).
  exists out. split; [done|]. split; [done|].
  destruct Hout as [(before & r & after & -> & [Hge _] & ->)|[_ ->]];
    [|done].
  simpl in Hge. unfold winner. destruct (err r) eqn:Er; [done|]. simpl.
  intros _. rewrite (replied_agreeing r) by done.
  etrans; [exact Hge|].
  change (before ++ r :: after) with (before ++ [r] ++ after).
  rewrite app_assoc. apply agreeing_app_le.
Qed.

End GetLoopFacts.

(** ** Frontend: Get *)

Section GetFacts.
Import Storage Frontend Quorum.
Variable MinRedundancy : nat.

Implicit Types (fe : Frontend) (k : N).
Implicit Types (answers : list (result (list string))).

(** The retry loop stops at the first answer without error. *)
Lemma listLoop_firstRoster router answers nodes rest evs :
  listLoop router answers = Some (nodes, rest, evs) →
  firstRoster answers nodes rest.
Proof.
  revert evs. induction answers as [|a answers IH]; intros evs; simpl;
    [done|].
  destruct a as [nodes'|e].
  - intros [= <- <- <-]. exists []. by split.
  - destruct (listLoop router answers) as [[[nodes' rest'] evs']|]; [|done].
    intros [= <- <- <-].
    destruct (IH _ eq_refl) as (failed & -> & Hfailed).
    exists (Fail e :: failed). split; [done|].
    constructor; [by exists e | done].
Qed.

(** It ends whenever one of the answers is without error. *)
Lemma listLoop_total router answers nodes rest :
  firstRoster answers nodes rest →
  ∃ evs, listLoop router answers = Some (nodes, rest, evs).
Proof.
  intros (failed & -> & Hfailed).
  induction Hfailed as [|a failed [e ->] _ [evs IH]]; simpl.
  - by eexists.
  - rewrite IH. by eexists.
Qed.

Lemma init_firstRoster fe answers fe' answers' evs :
  initDone fe = false →
  init fe answers = Some (fe', answers', evs) →
  initDone fe' = true ∧ conf fe' = conf fe
  ∧ firstRoster answers (routerNodes fe') answers'.
Proof.
  unfold init. intros ->.
  destruct (listLoop (Router (conf fe)) answers)
    as [[[nodes rest] evs']|] eqn:Hloop; [|done].
  intros [= <- <- <-]. simpl.
  split; [done|]. split; [done|]. by eapply listLoop_firstRoster.
Qed.

(** A [Get] on a Frontend whose roster is set leaves the Frontend as it is,
    calls [List] never and asks the replicas the placement function gives
    for the key and the roster. *)
Lemma Get_initialised fe answers k fe' answers' evs out :
  initDone fe = true →
  Get MinRedundancy fe answers k fe' answers' evs out →
  fe' = fe ∧ answers' = answers
  ∧ evs = getEvents k (NF (conf fe) k (routerNodes fe)).
Proof.
  intros Hdone Hrun.
  destruct Hrun as [fe' answers' evs results out Hinit _ _].
  unfold init in Hinit. rewrite Hdone in Hinit.
  injection Hinit as <- <- <-. done.
Qed.

Lemma getEvents_no_List k nodes :
  Forall (λ ev, ¬ isList ev) (getEvents k nodes).
Proof.
  unfold getEvents. apply Forall_fmap, Forall_forall. intros node _ [].
Qed.

Lemma Gets_initialised fe answers ks fe' answers' log :
  initDone fe = true →
  Gets MinRedundancy fe answers ks fe' answers' log →
  fe' = fe ∧ answers' = answers
  ∧ Forall2 (λ k entry,
       entry.1 = getEvents k (NF (conf fe) k (routerNodes fe))) ks log.
Proof.
  intros Hdone Hruns.
  induction Hruns as [fe answers | fe answers k ks fe1 answers1 evs out
                                     fe2 answers2 log Hget _ IH].
  - done.
  - destruct (Get_initialised _ _ _ _ _ _ _ Hdone Hget) as (-> & -> & ->).
    destruct (IH Hdone) as (-> & -> & Hlog).
    split; [done|]. split; [done|]. by constructor.
Qed.

(** A [Get] returns as soon as the roster is there, whatever the order in
    which the replicas answer. *)
Lemma Get_total fe answers k fe' answers' evs results :
  init fe answers = Some (fe', answers', evs) →
  results ≡ₚ (λ node, NC_Get (NC (conf fe')) node k) <$> replicas fe' k →
  ∃ out, Get MinRedundancy fe answers k fe' answers'
           (evs ++ getEvents k (replicas fe' k)) out.
Proof.
  intros Hinit Hperm.
  destruct (collectGet_spec MinRedundancy results) as (out & Hrun & _).
  exists out. eapply Get_run; [done | done |].
  rewrite <- Hrun. f_equal.
  by rewrite (Permutation_length Hperm), length_fmap.
Qed.

(** C2.  The loop of [Get], given the replicas' answers in the order they
    arrive, returns the winner of the first answer that brings its counter
    to [MinRedundancy] (answers counting together when they are the same
    error, or are both without error with the same bytes, which is when
    their map keys are equal; the bytes returned are those of that answer),
    and [ErrQuorumNotReached] when no answer does.  Bytes [b] come back only
    if [MinRedundancy] replicas answered exactly [b]. *)
Theorem Get_first_quorum :
  (∀ results,
     ∃ out,
       collectGet MinRedundancy (length results) results ∅ ∅ = Some out
       ∧ ((∃ before r after,
             results = before ++ r :: after
             ∧ firstAtQuorum MinRedundancy before r
             ∧ out = winner r)
          ∨ (neverAtQuorum MinRedundancy results ∧ out = quorumNotReached))
       ∧ (err out = None → MinRedundancy ≤ replied (data out) results))
  ∧ (∀ r r', dataKey r = dataKey r' ↔ data r = data r')
  ∧ (∀ fe answers k fe' answers' evs out,
       Get MinRedundancy fe answers k fe' answers' evs out →
       ∃ results,
         results ≡ₚ (λ node, NC_Get (NC (conf fe')) node k) <$> replicas fe' k
         ∧ collectGet MinRedundancy (length results) results ∅ ∅ = Some out
         ∧ (err out = None →
            MinRedundancy ≤
              replied (data out)
                ((λ node, NC_Get (NC (conf fe')) node k) <$> replicas fe' k)))
  ∧ (∀ fe answers k fe' answers' evs results,
       init fe answers = Some (fe', answers', evs) →
       results ≡ₚ (λ node, NC_Get (NC (conf fe')) node k) <$> replicas fe' k →
       ∃ out,
         collectGet MinRedundancy (length results) results ∅ ∅ = Some out
         ∧ Get MinRedundancy fe answers k fe' answers'
             (evs ++ getEvents k (replicas fe' k)) out).
Proof.
  split; [apply collectGet_spec|]. split; [apply dataKey_inj|].
  split; cycle 1.
  { intros fe answers k fe' answers' evs results Hinit Hperm.
    destruct (collectGet_spec MinRedundancy results) as (out & Hrun & _).
    exists out. split; [done|]. eapply Get_run; [done | done |].
    rewrite <- Hrun. f_equal.
    by rewrite (Permutation_length Hperm), length_fmap. }
  intros fe answers k fe' answers' evs out Hrun.
  destruct Hrun as [fe' answers' evs results out _ Hperm Hcollect].
  exists results. split; [done|].
  assert (Hlen : length results = length (replicas fe' k))
    by (by rewrite (Permutation_length Hperm), length_fmap).
  rewrite Hlen. split; [done|].
  destruct (collectGet_spec MinRedundancy results) as (out' & Hrun' & _ & Hb).
  rewrite Hlen, Hcollect in Hrun'. injection Hrun' as <-.
  rewrite <- (replied_perm _ _ _ Hperm). exact Hb.
Qed.

(** C9.  After the first [Get] of a Frontend has returned, its roster is the
    first answer of [List] that came without error.  From then on every
    [Get] leaves the roster and the whole Frontend as they are, consumes no
    answer of [List] and calls it never, and asks exactly the replicas the
    placement function gives for its key and that roster. *)
Theorem Get_roster_cached fe answers k fe1 answers1 evs1 out1 :
  initDone fe = false →
  Get MinRedundancy fe answers k fe1 answers1 evs1 out1 →
  initDone fe1 = true
  ∧ firstRoster answers (routerNodes fe1) answers1
  ∧ (∃ evs0, evs1 = evs0 ++ getEvents k (NF (conf fe) k (routerNodes fe1)))
  ∧ ∀ ks fe2 answers2 log,
      Gets MinRedundancy fe1 answers1 ks fe2 answers2 log →
      fe2 = fe1
      ∧ routerNodes fe2 = routerNodes fe1
      ∧ answers2 = answers1
      ∧ Forall2 (λ k' entry,
           entry.1 = getEvents k' (NF (conf fe) k' (routerNodes fe1))
           ∧ Forall (λ ev, ¬ isList ev) entry.1) ks log.
Proof.
  intros Hfresh Hrun.
  destruct Hrun as [fe1 answers1 evs results out1 Hinit _ _].
  destruct (init_firstRoster _ _ _ _ _ Hfresh Hinit) as (Hdone & Hconf & Hfirst).
  split; [done|]. split; [done|].
  split; [exists evs; unfold replicas, getEvents; by rewrite Hconf|].
  intros ks fe2 answers2 log Hruns.
  destruct (Gets_initialised _ _ _ _ _ _ Hdone Hruns) as (-> & -> & Hlog).
  split; [done|]. split; [done|]. split; [done|].
  rewrite <- Hconf. eapply Forall2_impl; [exact Hlog|].
  intros k' [evs' out'] ->. simpl. split; [done|]. apply getEvents_no_List.
Qed.

(** C10.  [Get] has no check on the number of replicas.  Once the roster is
    there, when the placement function gives fewer than [MinRedundancy]
    replicas for the key and the cached roster, none included, [Get] asks
    them all the same and returns [ErrQuorumNotReached] without bytes, in
    whatever order they answer; it does not return [ErrNotEnoughDaemons]. *)
Theorem Get_no_size_check fe answers k fe' answers' evs0 :
  init fe answers = Some (fe', answers', evs0) →
  length (replicas fe' k) < MinRedundancy →
  Get MinRedundancy fe answers k fe' answers'
    (evs0 ++ getEvents k (replicas fe' k)) quorumNotReached
  ∧ ∀ fe2 answers2 evs out,
      Get MinRedundancy fe answers k fe2 answers2 evs out →
      out = quorumNotReached
      ∧ err out ≠ Some ErrNotEnoughDaemons
      ∧ evs = evs0 ++ getEvents k (replicas fe' k).
Proof.
  intros Hinit Hfew.
  assert (Hall : ∀ fe2 answers2 evs out,
    Get MinRedundancy fe answers k fe2 answers2 evs out →
    out = quorumNotReached
    ∧ err out ≠ Some ErrNotEnoughDaemons
    ∧ evs = evs0 ++ getEvents k (replicas fe' k)).
  { intros fe2 answers2 evs out Hrun.
    destruct Hrun as [fe2 answers2 evs results out Hinit2 Hperm Hcollect].
    rewrite Hinit in Hinit2. injection Hinit2 as <- <- <-.
    assert (Hlen : length results = length (replicas fe' k))
      by (by rewrite (Permutation_length Hperm), length_fmap).
    destruct (collectGet_spec MinRedundancy results)
      as (out' & Hrun' & Hout & _).
    rewrite Hlen, Hcollect in Hrun'. injection Hrun' as <-.
    assert (out = quorumNotReached) as ->; [|done].
    destruct Hout as [(before & r & after & Heq & [Hge _] & _)|[_ ->]];
      [|done].
    pose proof (agreeing_le r (before ++ [r])) as Hle.
    rewrite Heq, length_app in Hlen. simpl in Hlen.
    rewrite length_app in Hle. simpl in Hle. lia. }
  split; [|exact Hall].
  destruct (Get_total _ _ k _ _ _ _ Hinit (reflexivity _)) as (out & Hrun).
  by destruct (Hall _ _ _ _ Hrun) as (<- & _).
Qed.

End GetFacts.

(** ** The properties on concrete systems *)

Section Scenarios.
Import Storage Frontend Quorum Scenario.

(** Scenario 2 of the specification: at 10000, with a timeout of 5000, "C"
    is forgotten and the two others are returned. *)
Example NodesFind_one_dead :
  Router.NodesFind 2 routerStale 7 10000 = Ok ["A"; "B"]%string.
Proof. vm_compute. reflexivity. Qed.

(** The bound is inclusive: at 6000 the age of "C" is the timeout. *)
Example NodesFind_at_timeout :
  Router.NodesFind 2 {| Router.conf := routerCfg;
                        Router.heartbeat := Router.seed 1000 roster ∅ |}
    7 6000 = Ok roster
  ∧ Router.NodesFind 2 {| Router.conf := routerCfg;
                          Router.heartbeat := Router.seed 1000 roster ∅ |}
      7 6001 = Fail ErrNotEnoughDaemons.
Proof. split; vm_compute; reflexivity. Qed.

Example New_short_roster :
  Router.New 3 {| Router.Addr := "router"; Router.Nodes := ["A"; "B"]%string;
                  Router.ForgetTimeout := 5000;
                  Router.NodesFinder := firstThree |} 1000
  = Fail ErrNotEnoughDaemons.
Proof. reflexivity. Qed.

(** Scenario 4: the answers "x", "x", "y" give "x" at the second one. *)
Example Get_split_values :
  collectGet 2 3 [{| data := x; err := None |}; {| data := x; err := None |};
                  {| data := y; err := None |}] ∅ ∅
  = Some {| data := x; err := None |}.
Proof. vm_compute. reflexivity. Qed.

(** Scenario 5: "x", "y" and [ErrRecordNotFound] give no quorum. *)
Example Get_no_majority :
  collectGet 2 3 [{| data := x; err := None |}; {| data := y; err := None |};
                  {| data := []; err := Some ErrRecordNotFound |}] ∅ ∅
  = Some quorumNotReached.
Proof. vm_compute. reflexivity. Qed.

(** Scenario 3: one success and two [ErrRecordExists]. *)
Example PutDel_record_exists :
  resolve 2 (tallyAll [Some ErrRecordExists; None; Some ErrRecordExists])
    (map_to_list
       (errCounts
          (tallyAll [Some ErrRecordExists; None; Some ErrRecordExists])))
  = Some ErrRecordExists.
Proof. vm_compute. reflexivity. Qed.

(** A second [Put] on a key is refused and the first bytes stay. *)
Example Node_Put_twice :
  (Node.Put (Node.Put Node.New 7 x).1 7 y).2 = Some ErrRecordExists
  ∧ Node.storage (Node.Put (Node.Put Node.New 7 x).1 7 y).1 !! 7%N = Some x.
Proof. split; vm_compute; reflexivity. Qed.

(** The router of the scenario is one that [New] and [Heartbeat] lead to;
    there a heartbeat of "B" is taken and one of "D" is turned down. *)
Lemma Heartbeat_roster_witness :
  Router.reachable 3 routerCfg routerAfterBeat
  ∧ (Router.Heartbeat routerAfterBeat "B" 3000).2 = None
  ∧ (Router.Heartbeat routerAfterBeat "D" 3000).2 = Some ErrUnknownDaemon.
Proof.
  assert (Hreach : Router.reachable 3 routerCfg routerAfterBeat).
  { apply Router.reachable_Heartbeat.
    apply (Router.reachable_New 3 routerCfg 1000). reflexivity. }
  destruct (Heartbeat_roster 3 routerCfg routerAfterBeat "B" 3000 Hreach)
    as (_ & _ & _ & _ & HB & _).
  destruct (Heartbeat_roster 3 routerCfg routerAfterBeat "D" 3000 Hreach)
    as (_ & HD & _).
  split; [exact Hreach|]. split.
  - apply HB. apply (bool_decide_unpack _). vm_compute. exact I.
  - apply HD. apply (bool_decide_unpack _). vm_compute. exact I.
Defined.

(** Scenario 3 of the specification: "A" and "B" hold key 7, "C" does not;
    [Put] returns [ErrRecordExists]. *)
Lemma PutDel_quorum_witness :
  RC_NodesFind (RC (conf (frontend roster firstThree)))
    (Router (conf (frontend roster firstThree))) 7 = Ok roster
  ∧ 2 ≤ length roster
  ∧ (∃ evs out, Put 2 (frontend roster firstThree) 7 hi evs out)
  ∧ (∀ evs out, Put 2 (frontend roster firstThree) 7 hi evs out →
       out = Some ErrRecordExists).
Proof.
  assert (Hrc : RC_NodesFind (RC (conf (frontend roster firstThree)))
            (Router (conf (frontend roster firstThree))) 7 = Ok roster)
    by reflexivity.
  assert (Hlen : 2 ≤ length roster) by (simpl; lia).
  destruct (PutDel_quorum 2 (frontend roster firstThree) 7%N roster
              Hrc Hlen hi) as (Hex & _ & Hput & _).
  split; [exact Hrc|]. split; [exact Hlen|]. split; [exact Hex|].
  intros evs out Hrun.
  destruct (Hput evs out Hrun) as (_ & _ & Hstated).
  destruct (Hstated ltac:(simpl; lia)) as (_ & He & _).
  apply He; vm_compute; lia.
Defined.

(** Two orders of arrival of one success and two [ErrRecordExists]. *)
Lemma applyPutDel_order_independent_witness :
  [Some ErrRecordExists; None; Some ErrRecordExists]
    ≡ₚ [None; Some ErrRecordExists; Some ErrRecordExists]
  ∧ (∀ out out',
       decision 2 [Some ErrRecordExists; None; Some ErrRecordExists] out →
       decision 2 [None; Some ErrRecordExists; Some ErrRecordExists] out' →
       out = out').
Proof.
  assert (Hperm : [Some ErrRecordExists; None; Some ErrRecordExists]
                    ≡ₚ [None; Some ErrRecordExists; Some ErrRecordExists])
    by apply perm_swap.
  split; [exact Hperm|].
  destruct (applyPutDel_order_independent 2 _ _ Hperm)
    as (_ & _ & _ & _ & _ & H).
  apply H. simpl. lia.
Defined.

(** Scenario 6 of the specification: [List] fails twice; the first [Get]
    caches the roster, and the later ones keep it. *)
Lemma Get_roster_cached_witness :
  initDone (frontend roster firstThree) = false
  ∧ Get 2 (frontend roster firstThree) listAnswers 7 (cached firstThree) []
      ([EvList "router"; EvSleep; EvList "router"; EvSleep; EvList "router"]
       ++ ((λ node, EvGet node 7%N) <$> replicas (cached firstThree) 7))
      {| data := hi; err := None |}
  ∧ (∀ ks fe2 answers2 log,
       Gets 2 (cached firstThree) [] ks fe2 answers2 log →
       routerNodes fe2 = roster ∧ answers2 = []).
Proof.
  assert (Hfresh : initDone (frontend roster firstThree) = false)
    by reflexivity.
  assert (Hrun :
    Get 2 (frontend roster firstThree) listAnswers 7 (cached firstThree) []
      ([EvList "router"; EvSleep; EvList "router"; EvSleep; EvList "router"]
       ++ ((λ node, EvGet node 7%N) <$> replicas (cached firstThree) 7))
      {| data := hi; err := None |}).
  { apply (Get_run 2 _ _ _ _ _ _
             ((λ node, NC_Get (NC (conf (cached firstThree))) node 7%N)
                <$> replicas (cached firstThree) 7));
      [reflexivity | reflexivity | vm_compute; reflexivity]. }
  split; [exact Hfresh|]. split; [exact Hrun|].
  intros ks fe2 answers2 log Hruns.
  destruct (Get_roster_cached 2 _ _ _ _ _ _ _ Hfresh Hrun) as (_ & _ & _ & H).
  destruct (H ks fe2 answers2 log Hruns) as (_ & -> & -> & _). done.
Defined.

(** A placement function that keeps one replica: [Get] asks it and returns
    [ErrQuorumNotReached]. *)
Lemma Get_no_size_check_witness :
  init (cached firstOnly) [] = Some (cached firstOnly, [], [])
  ∧ length (replicas (cached firstOnly) 7) < 2
  ∧ Get 2 (cached firstOnly) [] 7 (cached firstOnly) [] [EvGet "A" 7]
      quorumNotReached.
Proof.
  assert (Hinit : init (cached firstOnly) [] = Some (cached firstOnly, [], []))
    by reflexivity.
  assert (Hfew : length (replicas (cached firstOnly) 7) < 2)
    by (simpl; lia).
  split; [exact Hinit|]. split; [exact Hfew|].
  exact (proj1 (Get_no_size_check 2 _ _ 7%N _ _ _ Hinit Hfew)).
Defined.

(** C1, as stated, does not hold.  With four nodes of which two report
    [ErrRecordExists] and two a transport error, both kinds have
    [MinRedundancy] reports; [Put] returns the one the map hands out first,
    here the transport error although [ErrRecordExists] has its two
    reports, and in another run [ErrRecordExists]. *)
Lemma PutDel_two_quorums :
  let fe := frontend four firstThree in
  let results := (λ node, NC_Put (NC (conf fe)) node 7%N hi) <$> four in
  RC_NodesFind (RC (conf fe)) (Router (conf fe)) 7 = Ok four
  ∧ 2 ≤ length four
  ∧ successes results < 2
  ∧ 2 ≤ reports ErrRecordExists results
  ∧ (∃ evs, Put 2 fe 7 hi evs (Some (ErrTransport 0)))
  ∧ (∃ evs, Put 2 fe 7 hi evs (Some ErrRecordExists))
  ∧ ¬ statedOutcome 2 results (Some (ErrTransport 0))
  ∧ ¬ (∀ evs out, Put 2 fe 7 hi evs out → statedOutcome 2 results out).
Proof.
  intros fe results.
  assert (Hrun : ∀ order,
    order ≡ₚ map_to_list (errCounts (tallyAll results)) →
    Put 2 fe 7%N hi (EvNodesFind "router" 7 :: (EvMethod <$> four))
      (resolve 2 (tallyAll results) order)).
  { intros order Horder.
    apply (applyPutDel_fanout 2 fe 7%N _ four results (tallyAll results) []);
      [reflexivity | simpl; lia | reflexivity | reflexivity | exact Horder]. }
  assert (Hmap : map_to_list (errCounts (tallyAll results))
                 ≡ₚ [(ErrTransport 0, 2); (ErrRecordExists, 2)]).
  { apply NoDup_Permutation.
    - apply NoDup_map_to_list.
    - repeat constructor; rewrite ?elem_of_cons, ?elem_of_nil;
        intros H; try destruct H as [H|H]; done.
    - intros [e c]. rewrite elem_of_map_to_list.
      destruct (tallyAll_spec results) as [_ Herr]. rewrite Herr.
      rewrite !elem_of_cons, elem_of_nil.
      destruct e as [| | | | |[|tag]]; vm_compute; split;
        intros H; try discriminate; try (injection H as <-; tauto);
        destruct H as [H|[H|[]]]; congruence. }
  assert (Hnot : ¬ statedOutcome 2 results (Some (ErrTransport 0))).
  { intros (_ & He & _).
    assert (Some (ErrTransport 0) = Some ErrRecordExists); [|discriminate].
    apply He; vm_compute; lia. }
  assert (Htransport : ∃ evs, Put 2 fe 7 hi evs (Some (ErrTransport 0))).
  { eexists. apply (Hrun [(ErrTransport 0, 2); (ErrRecordExists, 2)]).
    by symmetry. }
  split; [reflexivity|]. split; [simpl; lia|].
  split; [vm_compute; lia|]. split; [vm_compute; lia|].
  split; [exact Htransport|]. split.
  { eexists. apply (Hrun [(ErrRecordExists, 2); (ErrTransport 0, 2)]).
    rewrite Hmap. apply perm_swap. }
  split; [exact Hnot|].
  intros Hall. destruct Htransport as [evs Hput]. by apply Hall in Hput.
Qed.

End Scenarios.

(** ** Router: liveness over time *)

Section RouterLiveness.
Import Storage Router Derived.
Variable ReplicationFactor : nat.
Variable MinRedundancy : nat.

Implicit Types (r : Router) (cfg : Config) (node : string) (k : N).

Lemma Sub_mono (t t' u : Z) : (t ≤ t')%Z → (Time.Sub t u ≤ Time.Sub t' u)%Z.
Proof.
  intros Hle. unfold Time.Sub; cbv zeta.
  destruct (Z.ltb_spec (t - u) Time.minDuration),
           (Z.ltb_spec (t' - u) Time.minDuration);
    try destruct (Z.ltb_spec Time.maxDuration (t - u));
    try destruct (Z.ltb_spec Time.maxDuration (t' - u));
    unfold Time.minDuration, Time.maxDuration in *; lia.
Qed.

(** [NodesFind] in one equation. *)
Lemma NodesFind_survivors r k (now : Z) :
  NodesFind MinRedundancy r k now =
    if decide (length (survivors r k now) < MinRedundancy)
    then Fail ErrNotEnoughDaemons else Ok (survivors r k now).
Proof.
  unfold NodesFind. cbv zeta. rewrite findLoop_filter. simpl.
  assert (Heq : filter (λ node, alive r now node = true)
                  (NodesFinder (conf r) k (Nodes (conf r)))
                = survivors r k now).
  { apply list_filter_iff. intros node. apply alive_iff. }
  rewrite Heq.
  destruct (Nat.ltb_spec (length (survivors r k now)) MinRedundancy).
  - by rewrite decide_True.
  - by rewrite decide_False by lia.
Qed.

Lemma filter_all {A} (P : A → Prop) `{∀ x, Decision (P x)} (l : list A) :
  (∀ x, x ∈ l → P x) → filter P l = l.
Proof.
  induction l as [|x l IH]; intros Hall; [done|].
  rewrite filter_cons, decide_True by (apply Hall; by left).
  f_equal. apply IH. intros y Hy. apply Hall. by right.
Qed.

Lemma filter_sublist_impl {A} (P Q : A → Prop)
    `{∀ x, Decision (P x)} `{∀ x, Decision (Q x)} (l : list A) :
  (∀ x, P x → Q x) → filter P l `sublist_of` filter Q l.
Proof.
  intros Himpl. induction l as [|x l IH]; [done|].
  rewrite !filter_cons. destruct (decide (P x)) as [HP|HP].
  - rewrite decide_True by auto. by constructor.
  - case_decide; [by constructor | done].
Qed.

Lemma reachable_roster cfg r :
  reachable ReplicationFactor cfg r →
  ReplicationFactor ≤ length (Nodes cfg).
Proof.
  induction 1 as [now r Hnew | r node now Hr IH]; [|done].
  unfold New in Hnew.
  destruct (Nat.ltb_spec (length (Nodes cfg)) ReplicationFactor); [done | lia].
Qed.

(** X1.  When every candidate of the placement has a heartbeat no older
    than the timeout, [NodesFind] returns the placement as it is, or fails
    when the placement itself has fewer than [MinRedundancy] nodes. *)
Theorem NodesFind_all_alive r k (now : Z) :
  (∀ node, node ∈ NodesFinder (conf r) k (Nodes (conf r)) →
     (Time.Sub now (lastBeat r node) ≤ ForgetTimeout (conf r))%Z) →
  NodesFind MinRedundancy r k now =
    if decide (length (NodesFinder (conf r) k (Nodes (conf r)))
               < MinRedundancy)
    then Fail ErrNotEnoughDaemons
    else Ok (NodesFinder (conf r) k (Nodes (conf r))).
Proof.
  intros Hall. rewrite NodesFind_survivors.
  unfold survivors. by rewrite filter_all.
Qed.

(** X2.  A router just built answers before any heartbeat has come: as long
    as the time since [New] is within the timeout, and the placement picks
    among the roster, [NodesFind] returns the whole placement. *)
Theorem NodesFind_after_New cfg r k (t0 now : Z) :
  New ReplicationFactor cfg t0 = Ok r →
  (∀ node, node ∈ NodesFinder cfg k (Nodes cfg) → node ∈ Nodes cfg) →
  (Time.Sub now t0 ≤ ForgetTimeout cfg)%Z →
  NodesFind MinRedundancy r k now =
    if decide (length (NodesFinder cfg k (Nodes cfg)) < MinRedundancy)
    then Fail ErrNotEnoughDaemons
    else Ok (NodesFinder cfg k (Nodes cfg)).
Proof.
  unfold New. case_match; [done|]. intros [= <-] Hin Hnow.
  rewrite NodesFind_survivors. unfold survivors. simpl.
  rewrite filter_all; [done|].
  intros node Hnode. unfold lastBeat. simpl.
  rewrite seed_lookup, decide_True by auto. done.
Qed.

(** X3.  Without heartbeats, time only removes nodes: the survivors at a
    later instant are among the survivors at an earlier one, in the same
    order, so a [NodesFind] that succeeds later succeeds earlier too. *)
Theorem NodesFind_antitone r k (now now' : Z) :
  (now ≤ now')%Z →
  survivors r k now' `sublist_of` survivors r k now
  ∧ ∀ found',
      NodesFind MinRedundancy r k now' = Ok found' →
      ∃ found, NodesFind MinRedundancy r k now = Ok found
               ∧ found' `sublist_of` found.
Proof.
  intros Hle.
  assert (Hsub : survivors r k now' `sublist_of` survivors r k now).
  { apply filter_sublist_impl. intros node Halive.
    etrans; [|exact Halive]. by apply Sub_mono. }
  split; [done|]. intros found'. rewrite !NodesFind_survivors.
  case_decide as Hlen'; [done|]. intros [= <-].
  pose proof (sublist_length _ _ Hsub).
  rewrite decide_False by lia. by eexists.
Qed.

(** X4.  A heartbeat of a known node makes it a survivor of every placement
    that contains it, for as long as the timeout lasts, and changes the
    fate of no other node. *)
Theorem Heartbeat_revives r node (t now : Z) k :
  is_Some (heartbeat r !! node) →
  (Time.Sub now t ≤ ForgetTimeout (conf r))%Z →
  (node ∈ NodesFinder (conf r) k (Nodes (conf r)) →
   node ∈ survivors (Heartbeat r node t).1 k now)
  ∧ (∀ other, other ≠ node →
       other ∈ survivors (Heartbeat r node t).1 k now
       ↔ other ∈ survivors r k now).
Proof.
  intros [t0 Ht0] Hnow. unfold Heartbeat. rewrite Ht0. simpl.
  unfold survivors, lastBeat. simpl. split.
  - intros Hin. apply list_elem_of_filter. split; [|done].
    by rewrite lookup_insert_eq.
  - intros other Hne. rewrite !list_elem_of_filter.
    by rewrite lookup_insert_ne.
Qed.

(** X5.  [List] returns the configured roster, which has at least
    [ReplicationFactor] nodes, on every router reached from [New], however
    many heartbeats were taken or turned down. *)
Theorem List_roster cfg r :
  reachable ReplicationFactor cfg r →
  List r = Nodes cfg ∧ ReplicationFactor ≤ length (List r).
Proof.
  intros Hreach. destruct (reachable_inv _ _ _ Hreach) as [Hconf _].
  unfold List. rewrite Hconf. split; [done|]. by eapply reachable_roster.
Qed.

(** X6.  Of two heartbeats of one node the later one stands, and heartbeats
    of different nodes can be taken in either order. *)
Theorem Heartbeat_compose r node node' (t t' : Z) :
  (Heartbeat (Heartbeat r node t).1 node t') = (Heartbeat r node t')
  ∧ (node ≠ node' →
     (Heartbeat (Heartbeat r node t).1 node' t').1
     = (Heartbeat (Heartbeat r node' t').1 node t).1).
Proof.
  split.
  - unfold Heartbeat. destruct (heartbeat r !! node) eqn:E; simpl.
    + rewrite lookup_insert_eq. simpl. by rewrite insert_insert_eq.
    + by rewrite E.
  - intros Hne. unfold Heartbeat.
    destruct (heartbeat r !! node) eqn:E, (heartbeat r !! node') eqn:E';
      simpl; rewrite ?lookup_insert_ne by done; rewrite ?E, ?E'; simpl;
      try done.
    by rewrite insert_insert_ne.
Qed.

(** X7.  On a router reached from [New], once more time than the timeout has
    passed since the zero instant, a candidate that the placement function
    takes from outside the roster is never returned: [NodesFind] returns
    roster nodes only. *)
Theorem NodesFind_within_roster cfg r k (now : Z) found :
  reachable ReplicationFactor cfg r →
  (ForgetTimeout cfg < Time.maxDuration)%Z →
  (ForgetTimeout cfg < now)%Z →
  NodesFind MinRedundancy r k now = Ok found →
  ∀ node, node ∈ found → node ∈ Nodes cfg.
Proof.
  intros Hreach Hmax Hnow. rewrite NodesFind_survivors.
  destruct (reachable_inv _ _ _ Hreach) as [Hconf Hdom].
  case_decide; [done|]. intros [= <-] node.
  unfold survivors. rewrite list_elem_of_filter, Hconf. intros [Halive _].
  destruct (decide (node ∈ Nodes cfg)) as [|Hout]; [done|]. exfalso.
  assert (Hnone : heartbeat r !! node = None).
  { apply not_elem_of_dom. rewrite Hdom. by rewrite elem_of_list_to_set. }
  unfold lastBeat in Halive. rewrite Hnone in Halive. simpl in Halive.
  revert Halive. unfold Time.Sub, Time.zero; cbv zeta.
  destruct (Z.ltb_spec (now - 0) Time.minDuration);
    [|destruct (Z.ltb_spec Time.maxDuration (now - 0))];
    unfold Time.minDuration, Time.maxDuration in *; lia.
Qed.

End RouterLiveness.

(** ** Node: deleting, reading back, histories *)

Section NodeHistories.
Import Storage Node Derived.

Implicit Types (node : Node) (k : N) (d : list byte) (calls : list call).

Lemma Node_eq node node' : storage node = storage node' → node = node'.
Proof. destruct node, node'. simpl. by intros ->. Qed.

(** X8.  [Del] returns [ErrRecordNotFound] exactly when the key holds no
    record, and then leaves the record map as it was; on a key that holds a
    record it returns no error, removes that key and changes no other. *)
Theorem Del_removes node k :
  ((Del node k).2 = Some ErrRecordNotFound ↔ storage node !! k = None)
  ∧ (∀ e, (Del node k).2 = Some e → e = ErrRecordNotFound)
  ∧ (storage node !! k = None → (Del node k).1 = node)
  ∧ (is_Some (storage node !! k) → (Del node k).2 = None)
  ∧ storage (Del node k).1 !! k = None
  ∧ (∀ k', k' ≠ k → storage (Del node k).1 !! k' = storage node !! k').
Proof.
  unfold Del. destruct (storage node !! k) as [old|] eqn:E; simpl.
  - split; [done|]. split; [done|]. split; [done|]. split; [done|].
    split; [apply lookup_delete_eq|].
    intros k' Hne. by apply lookup_delete_ne.
  - split; [done|]. split; [by intros ? [= <-]|]. split; [done|].
    split; [by intros [? ?]|]. done.
Qed.

(** X9.  What [Put] accepted is what [Get] returns, byte for byte; a key that
    was never written, or was deleted, reads as [ErrRecordNotFound]; and a
    [Put] that was refused leaves [Get] returning the bytes written first. *)
Theorem Get_after node k d :
  ((Put node k d).2 = None → Get (Put node k d).1 k = Ok d)
  ∧ (∀ old, Get node k = Ok old → Get (Put node k d).1 k = Ok old)
  ∧ Get (Del node k).1 k = Fail ErrRecordNotFound
  ∧ Get New k = Fail ErrRecordNotFound
  ∧ (∀ k', k' ≠ k →
       Get (Put node k d).1 k' = Get node k'
       ∧ Get (Del node k).1 k' = Get node k').
Proof.
  unfold Get, Put, Del. split; [|split; [|split; [|split]]].
  - destruct (storage node !! k) eqn:E; simpl; [done|].
    intros _. by rewrite lookup_insert_eq.
  - intros old. destruct (storage node !! k) eqn:E; simpl; [|done].
    by rewrite E.
  - destruct (storage node !! k) eqn:E; simpl.
    + by rewrite lookup_delete_eq.
    + by rewrite E.
  - done.
  - intros k' Hne. destruct (storage node !! k) eqn:E; simpl.
    + split; [done|]. by rewrite lookup_delete_ne.
    + split; [|done]. by rewrite lookup_insert_ne.
Qed.

(** X10.  [Del] undoes a [Put] on a free key: the node is then what it was
    before.  On a key that holds a record, [Del] followed by [Put] replaces
    the bytes, which is the only way to change them. *)
Theorem Put_Del_inverse node k d :
  (storage node !! k = None →
   Del (Put node k d).1 k = (node, None))
  ∧ (is_Some (storage node !! k) →
     (Put (Del node k).1 k d).2 = None
     ∧ storage (Put (Del node k).1 k d).1 = <[k := d]> (storage node)).
Proof.
  unfold Put, Del. split.
  - intros E. rewrite E. simpl. rewrite lookup_insert_eq. f_equal.
    apply Node_eq. simpl. by apply delete_insert_id.
  - intros [old E]. rewrite E. simpl. rewrite lookup_delete_eq. simpl.
    split; [done|]. apply insert_delete_eq.
Qed.

Lemma serve_keeps node c k d :
  storage node !! k = Some d → c ≠ CallDel k →
  storage (serve node c) !! k = Some d.
Proof.
  intros E Hc. destruct c as [k' d'|k'|k']; simpl; [| |done].
  - unfold Put. destruct (storage node !! k') eqn:E'; simpl; [done|].
    rewrite lookup_insert_ne; [done|]. intros ->. congruence.
  - unfold Del. destruct (storage node !! k') eqn:E'; simpl; [|done].
    rewrite lookup_delete_ne; [done|]. intros ->. by destruct Hc.
Qed.

(** X11.  Records are immutable: through any sequence of [Put], [Del] and
    [Get] calls in which the key itself is not deleted, the bytes stored
    under the key stay what they are, whatever is put to that key or done
    to the others. *)
Theorem record_immutable node calls k d :
  storage node !! k = Some d →
  Forall (λ c, c ≠ CallDel k) calls →
  storage (serveAll node calls) !! k = Some d
  ∧ Get (serveAll node calls) k = Ok d.
Proof.
  intros E Hcalls.
  assert (Hk : storage (serveAll node calls) !! k = Some d).
  { revert node E. unfold serveAll.
    induction Hcalls as [|c calls Hc _ IH]; intros node E; simpl; [done|].
    apply IH. by apply serve_keeps. }
  split; [done|]. unfold Get. by rewrite Hk.
Qed.

Lemma serve_keeps_free node c k :
  storage node !! k = None → (∀ d, c ≠ CallPut k d) →
  storage (serve node c) !! k = None.
Proof.
  intros E Hc. destruct c as [k' d'|k'|k']; simpl; [| |done].
  - unfold Put. destruct (storage node !! k') eqn:E'; simpl; [done|].
    rewrite lookup_insert_ne; [done|]. intros ->. by destruct (Hc d').
  - unfold Del. destruct (storage node !! k') eqn:E'; simpl; [|done].
    destruct (decide (k' = k)) as [->|?].
    + apply lookup_delete_eq.
    + by rewrite lookup_delete_ne.
Qed.

(** X12.  A record only comes from a [Put]: a key that holds nothing holds
    nothing after any sequence of calls none of which puts to that key. *)
Theorem record_only_from_Put node calls k :
  storage node !! k = None →
  Forall (λ c, ∀ d, c ≠ CallPut k d) calls →
  storage (serveAll node calls) !! k = None
  ∧ Get (serveAll node calls) k = Fail ErrRecordNotFound.
Proof.
  intros E Hcalls.
  assert (Hk : storage (serveAll node calls) !! k = None).
  { revert node E. unfold serveAll.
    induction Hcalls as [|c calls Hc _ IH]; intros node E; simpl; [done|].
    apply IH. by apply serve_keeps_free. }
  split; [done|]. unfold Get. by rewrite Hk.
Qed.

End NodeHistories.

(** ** Frontend: what a Put or Del result tells *)

Section PutDelSound.
Import Storage Frontend Quorum Derived.
Variable MinRedundancy : nat.

Implicit Types (fe : Frontend) (k : N) (method : string → option Err).

(** X13.  When the Router returns [MinRedundancy] nodes or more,
    [applyPutDel], and so [Put] and [Del], calls the method once on each of
    them; it returns success exactly when [MinRedundancy] of them reported
    success, and an error only if that error was reported by
    [MinRedundancy] nodes, or if it is [ErrQuorumNotReached] and no error
    was reported that often. *)
Theorem applyPutDel_sound fe k method nodes evs out :
  RC_NodesFind (RC (conf fe)) (Router (conf fe)) k = Ok nodes →
  MinRedundancy ≤ length nodes →
  applyPutDel MinRedundancy fe k method evs out →
  evs = EvNodesFind (Router (conf fe)) k :: (EvMethod <$> nodes)
  ∧ (out = None ↔ MinRedundancy ≤ successes (method <$> nodes))
  ∧ (∀ e, out = Some e →
       successes (method <$> nodes) < MinRedundancy
       ∧ (MinRedundancy ≤ reports e (method <$> nodes)
          ∨ (e = ErrQuorumNotReached
             ∧ ∀ e', reports e' (method <$> nodes) < MinRedundancy))).
Proof.
  intros Hrc Hlen Hrun.
  destruct (applyPutDel_fanout_inv _ _ _ _ _ _ _ Hrc Hlen Hrun)
    as (Hevs & results & Hperm & Hdec).
  split; [done|].
  apply decision_inv in Hdec as (order & Horder & ->).
  rewrite <- (successes_perm _ _ Hperm).
  assert (Hrep : ∀ e, reports e (method <$> nodes) = reports e results)
    by (intros e; symmetry; by apply reports_perm).
  unfold resolve. destruct (tallyAll_spec results) as [-> _].
  destruct (Nat.leb_spec MinRedundancy (successes results)) as [Hok|Hno].
  { split; [done|]. intros e [=]. }
  split; [split; [by destruct (firstQuorum _ _) | lia]|].
  intros e He. split; [done|]. rewrite Hrep.
  destruct (firstQuorum MinRedundancy order) as [e'|] eqn:Hfq.
  - injection He as <-.
    apply firstQuorum_Some in Hfq as (count & Hin & Hcount).
    apply (order_entry results) in Hin as [-> _]; [|done]. by left.
  - injection He as <-. right. split; [done|]. intros e'. rewrite Hrep.
    destruct (decide (reports e' results < MinRedundancy)); [done|].
    assert (Hin : (e', reports e' results) ∈ order).
    { apply (order_entry results); [done|]. split; [done | lia]. }
    apply (firstQuorum_None _ _ Hfq) in Hin. lia.
Qed.

End PutDelSound.

(** ** Frontend: what a Get result tells, and when the order matters *)

Section GetOrder.
Import Storage Frontend Quorum Derived.
Variable MinRedundancy : nat.

Implicit Types (r : GetResult) (results : list GetResult).
Implicit Types (fe : Frontend) (k : N).

Lemma sameAnswer_sym r r' : sameAnswer r r' → sameAnswer r' r.
Proof. unfold sameAnswer. by destruct (err r), (err r'). Qed.

Lemma sameAnswer_trans r1 r2 r3 :
  sameAnswer r1 r2 → sameAnswer r2 r3 → sameAnswer r1 r3.
Proof.
  unfold sameAnswer. destruct (err r1), (err r2), (err r3); try done;
    congruence.
Qed.

Lemma agreeing_same r r' results :
  sameAnswer r r' → agreeing r results = agreeing r' results.
Proof.
  intros Hs. unfold agreeing. f_equal. apply list_filter_iff. intros x.
  split; intros Hx.
  - eapply sameAnswer_trans; [by apply sameAnswer_sym | done].
  - by eapply sameAnswer_trans.
Qed.

Lemma winner_same r r' : sameAnswer r r' → winner r = winner r'.
Proof.
  unfold sameAnswer, winner. destruct (err r), (err r'); try done.
  - by intros ->.
  - by intros ->.
Qed.

Lemma agreeing_perm r results results' :
  results ≡ₚ results' → agreeing r results = agreeing r results'.
Proof. intros Hp. unfold agreeing. by rewrite Hp. Qed.

(** Answers that do not count together are counted apart. *)
Lemma agreeing_disjoint r r' results :
  ¬ sameAnswer r r' →
  agreeing r results + agreeing r' results ≤ length results.
Proof.
  intros Hne. unfold agreeing.
  induction results as [|x results IH]; simpl; [done|].
  rewrite !filter_cons.
  destruct (decide (sameAnswer r x)) as [Hx|?].
  - rewrite decide_False; [simpl; lia|].
    intros Hx'. apply Hne.
    eapply sameAnswer_trans; [done | by apply sameAnswer_sym].
  - case_decide; simpl; lia.
Qed.

Lemma agreeing_snoc_same r x results :
  sameAnswer r x →
  agreeing x (results ++ [x]) = agreeing r results + 1.
Proof.
  intros Hs. rewrite agreeing_snoc, decide_True by apply sameAnswer_refl.
  by rewrite (agreeing_same r x).
Qed.

(** When no answer brings its counter to the quorum, no kind of answer has
    a quorum in the whole sequence. *)
Lemma neverAtQuorum_all results r :
  1 ≤ MinRedundancy →
  neverAtQuorum MinRedundancy results →
  agreeing r results < MinRedundancy.
Proof.
  intros HM. induction results as [|x results IH] using rev_ind; intros Hn.
  - unfold agreeing. simpl. lia.
  - rewrite agreeing_snoc. case_decide as Hs.
    + rewrite <- (agreeing_snoc_same r x results Hs).
      apply (Hn results x []). done.
    + rewrite Nat.add_0_r. apply IH.
      intros pre y post ->. apply (Hn pre y (post ++ [x])).
      by rewrite <- app_assoc.
Qed.

Lemma failedWith_agreeing r e results :
  err r = Some e → failedWith e results = agreeing r results.
Proof.
  intros Er. unfold failedWith, agreeing. f_equal.
  apply list_filter_iff. intros x.
  rewrite <- (sameAnswer_err x r e Er).
  split; apply sameAnswer_sym.
Qed.

Lemma failedWith_perm e results results' :
  results ≡ₚ results' → failedWith e results = failedWith e results'.
Proof. intros Hp. unfold failedWith. by rewrite Hp. Qed.

(** What a run of [Get] is made of. *)
Lemma Get_inv fe answers k fe' answers' evs out :
  Get MinRedundancy fe answers k fe' answers' evs out →
  ∃ evs0 results,
    init fe answers = Some (fe', answers', evs0)
    ∧ evs = evs0 ++ getEvents k (replicas fe' k)
    ∧ results ≡ₚ (λ node, NC_Get (NC (conf fe')) node k) <$> replicas fe' k
    ∧ collectGet MinRedundancy (length results) results ∅ ∅ = Some out.
Proof.
  intros Hrun.
  destruct Hrun as [fe' answers' evs results out Hinit Hperm Hcollect].
  exists evs, results. split; [done|]. split; [done|]. split; [done|].
  by rewrite (Permutation_length Hperm), length_fmap.
Qed.

(** X14.  [Get] returns an error only without bytes, and only if that error
    came from [MinRedundancy] replicas, or if it is [ErrQuorumNotReached]
    and no answer brought its counter to [MinRedundancy] as the answers
    arrived; then, [MinRedundancy] being 1 or more, no kind of answer has
    [MinRedundancy] replicas behind it: no error and no bytes. *)
Theorem Get_error_sound fe answers k fe' answers' evs out e :
  Get MinRedundancy fe answers k fe' answers' evs out →
  err out = Some e →
  data out = []
  ∧ (MinRedundancy ≤
       failedWith e
         ((λ node, NC_Get (NC (conf fe')) node k) <$> replicas fe' k)
     ∨ (e = ErrQuorumNotReached
        ∧ out = quorumNotReached
        ∧ (∃ results,
             results
               ≡ₚ (λ node, NC_Get (NC (conf fe')) node k) <$> replicas fe' k
             ∧ neverAtQuorum MinRedundancy results)
        ∧ (1 ≤ MinRedundancy →
           (∀ r, agreeing r
                   ((λ node, NC_Get (NC (conf fe')) node k)
                      <$> replicas fe' k) < MinRedundancy)
           ∧ (∀ e', failedWith e'
                      ((λ node, NC_Get (NC (conf fe')) node k)
                         <$> replicas fe' k) < MinRedundancy)
           ∧ (∀ b, replied b
                     ((λ node, NC_Get (NC (conf fe')) node k)
                        <$> replicas fe' k) < MinRedundancy)))).
Proof.
  intros Hrun He.
  destruct (Get_inv _ _ _ _ _ _ _ Hrun)
    as (evs0 & results & _ & _ & Hperm & Hcollect).
  destruct (collectGet_spec MinRedundancy results) as (out' & Hrun' & Hout & _).
  rewrite Hcollect in Hrun'. injection Hrun' as <-.
  destruct Hout as [(before & r & after & -> & [Hge _] & ->)|[Hnever ->]].
  - unfold winner in *. destruct (err r) as [e'|] eqn:Er; [|done].
    simpl in He. injection He as ->. split; [done|]. left.
    rewrite <- (failedWith_perm _ _ _ Hperm), (failedWith_agreeing r) by done.
    etrans; [exact Hge|].
    change (before ++ r :: after) with (before ++ [r] ++ after).
    rewrite app_assoc. apply agreeing_app_le.
  - simpl in He. injection He as <-. split; [done|]. right.
    split; [done|]. split; [done|]. split; [by exists results|].
    intros HM.
    assert (Hall : ∀ r,
      agreeing r ((λ node, NC_Get (NC (conf fe')) node k) <$> replicas fe' k)
      < MinRedundancy).
    { intros r. rewrite <- (agreeing_perm _ _ _ Hperm).
      by apply neverAtQuorum_all. }
    split; [exact Hall|]. split.
    + intros e'.
      rewrite (failedWith_agreeing {| data := []; err := Some e' |}) by done.
      apply Hall.
    + intros b.
      pose proof (replied_agreeing (bytesAnswer b)
                    ((λ node, NC_Get (NC (conf fe')) node k)
                       <$> replicas fe' k) eq_refl) as Hb.
      simpl in Hb. rewrite Hb. apply Hall.
Qed.

(** When one kind of answer at most has a quorum, the loop of [Get] returns
    the same thing for every order of arrival. *)
Lemma collectGet_single_class results results' :
  1 ≤ MinRedundancy →
  results ≡ₚ results' →
  (∀ r r', MinRedundancy ≤ agreeing r results →
           MinRedundancy ≤ agreeing r' results → sameAnswer r r') →
  collectGet MinRedundancy (length results') results' ∅ ∅
  = collectGet MinRedundancy (length results) results ∅ ∅.
Proof.
  intros HM Hperm Hone.
  destruct (collectGet_spec MinRedundancy results) as (out & -> & Hout & _).
  destruct (collectGet_spec MinRedundancy results') as (out' & -> & Hout' & _).
  f_equal.
  assert (Hwin : ∀ l before r after,
    l = before ++ r :: after → firstAtQuorum MinRedundancy before r →
    MinRedundancy ≤ agreeing r l).
  { intros l before r after -> [Hge _]. etrans; [exact Hge|].
    change (before ++ r :: after) with (before ++ [r] ++ after).
    rewrite app_assoc. apply agreeing_app_le. }
  destruct Hout as [(b1 & r1 & a1 & E1 & F1 & ->)|[N1 ->]],
           Hout' as [(b2 & r2 & a2 & E2 & F2 & ->)|[N2 ->]].
  - apply winner_same. apply Hone.
    + rewrite (agreeing_perm _ _ _ Hperm). by eapply Hwin.
    + by eapply Hwin.
  - pose proof (Hwin _ _ _ _ E1 F1) as Hge.
    pose proof (neverAtQuorum_all results' r1 HM N2) as Hlt.
    rewrite (agreeing_perm _ _ _ Hperm) in Hge. lia.
  - pose proof (Hwin _ _ _ _ E2 F2) as Hge.
    pose proof (neverAtQuorum_all results r2 HM N1) as Hlt.
    rewrite <- (agreeing_perm _ _ _ Hperm) in Hge. lia.
  - done.
Qed.

(** X15.  With fewer than [2 * MinRedundancy] replicas, [Get] returns the
    same result in whatever order the replicas answer: two runs of the same
    call agree on the result, on the events and on the Frontend they
    leave. *)
Theorem Get_decided_below_2M fe answers k
    fe1 answers1 evs1 out1 fe2 answers2 evs2 out2 :
  1 ≤ MinRedundancy →
  Get MinRedundancy fe answers k fe1 answers1 evs1 out1 →
  Get MinRedundancy fe answers k fe2 answers2 evs2 out2 →
  length (replicas fe1 k) < 2 * MinRedundancy →
  out1 = out2 ∧ fe1 = fe2 ∧ answers1 = answers2 ∧ evs1 = evs2.
Proof.
  intros HM Hrun1 Hrun2 Hlen.
  destruct (Get_inv _ _ _ _ _ _ _ Hrun1)
    as (evs0 & results1 & Hinit1 & -> & Hperm1 & Hc1).
  destruct (Get_inv _ _ _ _ _ _ _ Hrun2)
    as (evs0' & results2 & Hinit2 & -> & Hperm2 & Hc2).
  rewrite Hinit1 in Hinit2. injection Hinit2 as <- <- <-.
  split; [|done].
  assert (Hperm : results1 ≡ₚ results2) by (by rewrite Hperm1, Hperm2).
  assert (Heq : Some out2 = Some out1); [|by injection Heq].
  rewrite <- Hc1, <- Hc2. apply collectGet_single_class; [done | done |].
  intros r r' Hr Hr'.
  destruct (decide (sameAnswer r r')) as [|Hne]; [done|]. exfalso.
  pose proof (agreeing_disjoint r r' results1 Hne) as Hsum.
  rewrite (Permutation_length Hperm1), length_fmap in Hsum. lia.
Qed.

(** The first answers decide when they agree: the loop started with a
    counter at [c] returns after [n] more answers of that kind. *)
Lemma collectGet_run_of r rest n dataCounts errCounts :
  1 ≤ n →
  match err r with
  | Some e => counter errCounts e
  | None => counter dataCounts (dataKey r)
  end + n = MinRedundancy →
  collectGet MinRedundancy (n + length rest) (replicate n r ++ rest)
    dataCounts errCounts
  = Some (winner r).
Proof.
  revert dataCounts errCounts.
  induction n as [|n IH]; intros dataCounts errCounts Hn Hc; [lia|].
  simpl. unfold winner in *. destruct (err r) as [e|] eqn:Er.
  - rewrite counter_incr, decide_True by done.
    destruct (Nat.leb_spec MinRedundancy (S (counter errCounts e)));
      [done|].
    apply IH; [lia|]. rewrite counter_incr, decide_True by done. lia.
  - rewrite counter_incr, decide_True by done.
    destruct (Nat.leb_spec MinRedundancy
                (S (counter dataCounts (dataKey r)))); [done|].
    apply IH; [lia|]. rewrite counter_incr, decide_True by done. lia.
Qed.

(** The loop run from empty maps on [MinRedundancy] equal answers and
    anything after them. *)
Lemma collectGet_first_M r rest :
  1 ≤ MinRedundancy →
  collectGet MinRedundancy (length (replicate MinRedundancy r ++ rest))
    (replicate MinRedundancy r ++ rest) ∅ ∅
  = Some (winner r).
Proof.
  intros HM. rewrite length_app, length_replicate.
  apply collectGet_run_of; [done|].
  destruct (err r); unfold counter; by rewrite lookup_empty.
Qed.

(** X16.  [Get] stops at the first quorum: when the first [MinRedundancy]
    answers to arrive are the same answer, that answer is the result,
    whatever the replicas that answer later say. *)
Theorem Get_first_answers_decide r rest :
  1 ≤ MinRedundancy →
  collectGet MinRedundancy (length (replicate MinRedundancy r ++ rest))
    (replicate MinRedundancy r ++ rest) ∅ ∅
  = Some (winner r)
  ∧ ∀ rest',
      collectGet MinRedundancy (length (replicate MinRedundancy r ++ rest'))
        (replicate MinRedundancy r ++ rest') ∅ ∅
      = collectGet MinRedundancy (length (replicate MinRedundancy r ++ rest))
          (replicate MinRedundancy r ++ rest) ∅ ∅.
Proof.
  intros HM. split; [by apply collectGet_first_M|].
  intros rest'. by rewrite !collectGet_first_M.
Qed.

(** X17.  From [2 * MinRedundancy] replicas on, the result of [Get] depends
    on the order of arrival: when [MinRedundancy] replicas hold the bytes
    [b] and [MinRedundancy] others hold different bytes [b'], the same
    answers give [b] when those of the first group arrive first and [b']
    when those of the second do. *)
Theorem Get_order_matters (b b' : list byte) :
  1 ≤ MinRedundancy →
  b ≠ b' →
  replicate MinRedundancy (bytesAnswer b)
    ++ replicate MinRedundancy (bytesAnswer b')
  ≡ₚ replicate MinRedundancy (bytesAnswer b')
       ++ replicate MinRedundancy (bytesAnswer b)
  ∧ collectGet MinRedundancy (2 * MinRedundancy)
      (replicate MinRedundancy (bytesAnswer b)
         ++ replicate MinRedundancy (bytesAnswer b')) ∅ ∅
    = Some (bytesAnswer b)
  ∧ collectGet MinRedundancy (2 * MinRedundancy)
      (replicate MinRedundancy (bytesAnswer b')
         ++ replicate MinRedundancy (bytesAnswer b)) ∅ ∅
    = Some (bytesAnswer b')
  ∧ bytesAnswer b ≠ bytesAnswer b'.
Proof.
  intros HM Hne. split; [apply Permutation_app_comm|].
  assert (Hlen : ∀ x y : GetResult,
    2 * MinRedundancy
    = length (replicate MinRedundancy x ++ replicate MinRedundancy y)).
  { intros x y. rewrite length_app, !length_replicate. lia. }
  split; [|split].
  - rewrite (Hlen (bytesAnswer b) (bytesAnswer b')).
    by rewrite collectGet_first_M.
  - rewrite (Hlen (bytesAnswer b') (bytesAnswer b)).
    by rewrite collectGet_first_M.
  - intros [= ?]. done.
Qed.

Lemma all_same_replicate {A} (x : A) (l : list A) :
  (∀ y, y ∈ l → y = x) → l = replicate (length l) x.
Proof.
  induction l as [|y l IH]; intros Hall; [done|]. simpl.
  rewrite (Hall y) by (by left). f_equal. apply IH.
  intros z Hz. apply Hall. by right.
Qed.

(** X18.  When every replica answers with the same bytes and there are
    [MinRedundancy] replicas or more, [Get] returns those bytes. *)
Theorem Get_unanimous fe answers k fe' answers' evs out (b : list byte) :
  1 ≤ MinRedundancy →
  MinRedundancy ≤ length (replicas fe' k) →
  (∀ node, node ∈ replicas fe' k →
     NC_Get (NC (conf fe')) node k = bytesAnswer b) →
  Get MinRedundancy fe answers k fe' answers' evs out →
  out = bytesAnswer b.
Proof.
  intros HM Hlen Hall Hrun.
  destruct (Get_inv _ _ _ _ _ _ _ Hrun)
    as (evs0 & results & _ & _ & Hperm & Hcollect).
  assert (Hn : length results = length (replicas fe' k))
    by (by rewrite (Permutation_length Hperm), length_fmap).
  assert (Hres : results = replicate (length results) (bytesAnswer b)).
  { apply all_same_replicate. intros y Hy. rewrite Hperm in Hy.
    apply list_elem_of_fmap in Hy as (node & -> & Hnode). by apply Hall. }
  assert (Hsplit : results =
    replicate MinRedundancy (bytesAnswer b)
      ++ replicate (length results - MinRedundancy) (bytesAnswer b)).
  { rewrite <- replicate_add.
    replace (MinRedundancy + (length results - MinRedundancy))
      with (length results) by lia. done. }
  rewrite Hsplit, collectGet_first_M in Hcollect by done.
  by injection Hcollect as <-.
Qed.

End GetOrder.

(** ** Frontend: the roster fetch, and who is asked what *)

Section GetRoster.
Import Storage Frontend Quorum Derived.
Variable MinRedundancy : nat.

Implicit Types (fe : Frontend) (k : N).
Implicit Types (answers failed : list (result (list string))).

Lemma listLoop_retries router failed roster rest :
  Forall (λ a, ∃ e, a = Fail e) failed →
  listLoop router (failed ++ Ok roster :: rest)
  = Some (roster, rest, retryEvents router failed).
Proof.
  unfold retryEvents.
  induction 1 as [|a failed [e ->] _ IH]; simpl; [done|]. by rewrite IH.
Qed.

Lemma listLoop_never router answers :
  Forall (λ a, ∃ e, a = Fail e) answers → listLoop router answers = None.
Proof. induction 1 as [|a answers [e ->] _ IH]; simpl; [done|]. by rewrite IH. Qed.

Lemma listLoop_events router answers roster rest evs :
  listLoop router answers = Some (roster, rest, evs) →
  Forall (λ ev, ev = EvList router ∨ ev = EvSleep) evs.
Proof.
  revert evs. induction answers as [|a answers IH]; intros evs; simpl;
    [done|].
  destruct a as [nodes|e].
  - intros [= <- <- <-]. repeat constructor.
  - destruct (listLoop router answers) as [[[nodes' rest'] evs']|]; [|done].
    intros [= <- <- <-]. constructor; [by left|]. constructor; [by right|].
    by apply IH.
Qed.

(** X19.  The first [Get] of a Frontend fetches the roster by retrying: when
    [List] fails some number of times and then answers, the Frontend has
    called it once per failure, slept after each failure, called it once
    more, and holds the roster of that last answer; the answers that come
    after are not asked for.  While [List] only fails, the fetch does not
    end. *)
Theorem init_retries cfg failed roster rest :
  Forall (λ a, ∃ e, a = Fail e) failed →
  init (New cfg) (failed ++ Ok roster :: rest)
  = Some ({| conf := cfg; initDone := true; routerNodes := roster |},
          rest, retryEvents (Router cfg) failed)
  ∧ length (retryEvents (Router cfg) failed) = 2 * length failed + 1
  ∧ init (New cfg) failed = None.
Proof.
  intros Hfailed. unfold init. simpl.
  rewrite listLoop_retries, listLoop_never by done.
  split; [done|]. split; [|done].
  unfold retryEvents. rewrite length_app. simpl.
  assert (Hlen : length (concat ((λ _, [EvList (Router cfg); EvSleep])
                                   <$> failed)) = 2 * length failed).
  { clear Hfailed. induction failed as [|a failed IH]; [done|].
    rewrite fmap_cons. simpl. rewrite IH. lia. }
  rewrite Hlen. lia.
Qed.

(** X20.  The two paths keep to their own requests.  A [Get] sends no
    [NodesFind] to the Router and calls no Put or Del method: it sends one
    Get request to each replica of the placement, after the [List] calls of
    the roster fetch if there are any.  A Put or Del sends one [NodesFind]
    to the Router first, then only method calls: no [List], no sleep, no Get
    request. *)
Theorem requests_apart :
  (∀ fe answers k fe' answers' evs out,
     Get MinRedundancy fe answers k fe' answers' evs out →
     ∃ evs0,
       evs = evs0 ++ getEvents k (replicas fe' k)
       ∧ Forall (λ ev, ev = EvList (Router (conf fe)) ∨ ev = EvSleep) evs0
       ∧ Forall (λ ev, ¬ isNodesFind ev ∧ ∀ node, ev ≠ EvMethod node) evs)
  ∧ (∀ fe k method evs out,
       applyPutDel MinRedundancy fe k method evs out →
       ∃ called,
         evs = EvNodesFind (Router (conf fe)) k :: (EvMethod <$> called)
         ∧ Forall (λ ev, ¬ isList ev ∧ ev ≠ EvSleep
                         ∧ ∀ node k', ev ≠ EvGet node k') evs).
Proof.
  split.
  - intros fe answers k fe' answers' evs out Hrun.
    destruct Hrun as [fe' answers' evs results out Hinit _ _].
    exists evs. split; [done|].
    assert (Hevs : Forall (λ ev, ev = EvList (Router (conf fe))
                                 ∨ ev = EvSleep) evs).
    { unfold init in Hinit. destruct (initDone fe).
      - injection Hinit as <- <- <-. constructor.
      - destruct (listLoop (Router (conf fe)) answers)
          as [[[nodes rest] evs']|] eqn:Hloop; [|done].
        injection Hinit as <- <- <-. by eapply listLoop_events. }
    split; [done|]. apply Forall_app. split.
    + eapply Forall_impl; [exact Hevs|].
      intros ev [->| ->]; split; (by intros [] || done).
    + apply Forall_fmap, Forall_forall. intros node _.
      split; [by intros [] | done].
  - intros fe k method evs out Hrun.
    destruct Hrun as [e He | nodes Hn Hfew | nodes results t rest order Hn].
    + exists []. split; [done|].
      constructor; [|constructor]. split; [by intros [] | done].
    + exists []. split; [done|].
      constructor; [|constructor]. split; [by intros [] | done].
    + exists nodes. split; [done|]. constructor.
      * split; [by intros [] | done].
      * apply Forall_fmap, Forall_forall. intros node _.
        split; [by intros [] | done].
Qed.

End GetRoster.

(** ** Router and Frontend: the nodes written and the nodes read *)

Section Placement.
Import Storage Derived.
Variable MinRedundancy : nat.

(** X21.  When the Frontend holds the roster the Router lists and uses the
    same placement function, the nodes that a Put or Del is sent to, those
    [NodesFind] returns for a key, are among the replicas a [Get] of that
    key asks, in the same order; there are [MinRedundancy] of them or more;
    and they are all the replicas when every replica has a heartbeat within
    the timeout. *)
Theorem written_within_read (r : Router.Router) (fe : Frontend.Frontend)
    (k : N) (now : Z) (found : list string) :
  Frontend.NF (Frontend.conf fe) = Router.NodesFinder (Router.conf r) →
  Frontend.routerNodes fe = Router.List r →
  Router.NodesFind MinRedundancy r k now = Ok found →
  found `sublist_of` Frontend.replicas fe k
  ∧ MinRedundancy ≤ length found
  ∧ ((∀ node, node ∈ Frontend.replicas fe k →
        (Time.Sub now (Router.lastBeat r node)
         ≤ Router.ForgetTimeout (Router.conf r))%Z) →
     found = Frontend.replicas fe k).
Proof.
  intros HNF Hroster. rewrite NodesFind_survivors.
  assert (Hrep : Frontend.replicas fe k
                 = Router.NodesFinder (Router.conf r) k
                     (Router.Nodes (Router.conf r))).
  { unfold Frontend.replicas. by rewrite HNF, Hroster. }
  case_decide as Hlen; [done|]. intros [= <-].
  split; [rewrite Hrep; apply sublist_filter|]. split; [lia|].
  intros Hall. rewrite Hrep in *. unfold survivors. by apply filter_all.
Qed.

End Placement.

(** ** The further properties on concrete systems *)

Section MoreScenarios.
Import Storage Frontend Quorum Derived Scenario Cases.

Lemma routerFresh_reachable : Router.reachable 3 routerCfg routerFresh.
Proof. apply (Router.reachable_New 3 routerCfg 1000). reflexivity. Qed.

Lemma roster_alive_at (now : Z) :
  (now ≤ 6000)%Z →
  ∀ node, node ∈ roster →
    (Time.Sub now (Router.lastBeat routerFresh node) ≤ 5000)%Z.
Proof.
  intros Hnow node Hin.
  assert (Hbeat : Router.lastBeat routerFresh node = 1000%Z).
  { unfold roster in Hin.
    repeat (apply elem_of_cons in Hin as [->|Hin]; [reflexivity|]).
    by apply elem_of_nil in Hin. }
  rewrite Hbeat. pose proof (Sub_range now 1000) as Hrange.
  unfold Time.Sub, Time.minDuration, Time.maxDuration in *.
  cbv zeta in *. repeat case_match; lia.
Qed.

(** All three nodes reported at 1000: at 3000 the placement is returned. *)
Lemma NodesFind_all_alive_witness :
  Router.NodesFind 2 routerFresh 7 3000 = Ok roster.
Proof.
  exact (NodesFind_all_alive 2 routerFresh 7%N 3000%Z
           (roster_alive_at 3000 ltac:(lia))).
Defined.

Lemma NodesFind_after_New_witness :
  Router.New 3 routerCfg 1000 = Ok routerFresh
  ∧ Router.NodesFind 2 routerFresh 7 6000 = Ok roster.
Proof.
  assert (Hnew : Router.New 3 routerCfg 1000 = Ok routerFresh)
    by reflexivity.
  split; [exact Hnew|].
  exact (NodesFind_after_New 3 2 routerCfg routerFresh 7%N 1000%Z 6000%Z
           Hnew (λ node Hin, Hin) ltac:(by vm_compute)).
Defined.

Lemma NodesFind_antitone_witness :
  (3000 ≤ 7000)%Z
  ∧ survivors routerFresh 7 7000 `sublist_of` survivors routerFresh 7 3000.
Proof.
  assert (Hle : (3000 ≤ 7000)%Z) by lia.
  split; [exact Hle|].
  exact (proj1 (NodesFind_antitone 2 routerFresh 7%N 3000%Z 7000%Z Hle)).
Defined.

(** "C" reported last at 1000 and is forgotten at 10000; a heartbeat at 9800
    brings it back. *)
Lemma Heartbeat_revives_witness :
  ("C" ∉ survivors routerStale 7 10000)
  ∧ "C" ∈ survivors (Router.Heartbeat routerStale "C" 9800).1 7 10000.
Proof.
  split.
  - assert (survivors routerStale 7 10000 = ["A"; "B"]%string) as ->
      by (vm_compute; reflexivity).
    intros Hin.
    repeat (apply elem_of_cons in Hin as [Hin|Hin]; [discriminate|]).
    by apply elem_of_nil in Hin.
  - assert (Hknown : is_Some (Router.heartbeat routerStale !! "C"%string))
      by (exists 1000%Z; reflexivity).
    assert (Hnow : (Time.Sub 10000 9800
                    ≤ Router.ForgetTimeout (Router.conf routerStale))%Z)
      by (by vm_compute).
    apply (proj1 (Heartbeat_revives routerStale "C" 9800%Z 10000%Z 7%N
                    Hknown Hnow)).
    apply (bool_decide_unpack _). vm_compute. exact I.
Defined.

Lemma List_roster_witness :
  Router.reachable 3 routerCfg routerFresh
  ∧ Router.List routerFresh = roster
  ∧ 3 ≤ length (Router.List routerFresh).
Proof.
  split; [exact routerFresh_reachable|].
  exact (List_roster 3 routerCfg routerFresh routerFresh_reachable).
Defined.

Lemma NodesFind_within_roster_witness :
  Router.NodesFind 2 routerFresh 7 6000 = Ok roster
  ∧ ∀ node, node ∈ roster → node ∈ Router.Nodes routerCfg.
Proof.
  assert (Hfind : Router.NodesFind 2 routerFresh 7 6000 = Ok roster)
    by (vm_compute; reflexivity).
  split; [exact Hfind|].
  apply (NodesFind_within_roster 3 2 routerCfg routerFresh 7%N 6000%Z roster
           routerFresh_reachable); [by vm_compute | by vm_compute | exact Hfind].
Defined.

(** Key 7 holds "x": a refused [Put], a [Del] of another key, a [Get] and a
    [Put] of another key leave it so. *)
Lemma record_immutable_witness :
  Node.storage nodeWith7 !! 7%N = Some x
  ∧ Node.Get
      (serveAll nodeWith7 [CallPut 7 y; CallDel 8; CallGet 7; CallPut 9 hi]) 7
    = Ok x.
Proof.
  assert (Hx : Node.storage nodeWith7 !! 7%N = Some x)
    by (vm_compute; reflexivity).
  split; [exact Hx|].
  apply (record_immutable nodeWith7
           [CallPut 7 y; CallDel 8; CallGet 7; CallPut 9 hi] 7%N x Hx).
  repeat constructor; congruence.
Defined.

Lemma record_only_from_Put_witness :
  Node.Get (serveAll Node.New [CallDel 7; CallGet 7; CallPut 8 x]) 7
  = Fail ErrRecordNotFound.
Proof.
  apply (record_only_from_Put Node.New [CallDel 7; CallGet 7; CallPut 8 x]
           7%N); [reflexivity|].
  repeat constructor; congruence.
Defined.

(** Scenario 3 again: with one success out of three, [Put] does not return
    success. *)
Lemma applyPutDel_sound_witness :
  ∃ evs out,
    Put 2 (frontend roster firstThree) 7 hi evs out
    ∧ out ≠ None
    ∧ evs = EvNodesFind "router" 7 :: (EvMethod <$> roster).
Proof.
  destruct (applyPutDel_total 2 (frontend roster firstThree) 7%N
              (λ node, NC_Put (NC (conf (frontend roster firstThree)))
                         node 7%N hi))
    as (evs & out & Hrun).
  exists evs, out. split; [exact Hrun|].
  destruct (applyPutDel_sound 2 (frontend roster firstThree) 7%N _ roster
              evs out eq_refl ltac:(simpl; lia) Hrun) as (Hevs & Hiff & _).
  split; [|exact Hevs].
  intros Hout. apply Hiff in Hout. vm_compute in Hout. lia.
Defined.

(** A roster led by two nodes that cannot be reached: [Get] returns their
    transport error, which two replicas gave. *)
Lemma Get_error_sound_witness :
  Get 2 (cachedOn ["D"; "E"; "A"]%string) [] 7
    (cachedOn ["D"; "E"; "A"]%string) []
    ([] ++ ((λ node, EvGet node 7%N)
              <$> replicas (cachedOn ["D"; "E"; "A"]%string) 7))
    {| data := []; err := Some (ErrTransport 0) |}
  ∧ 2 ≤ failedWith (ErrTransport 0)
          ((λ node, NC_Get (NC (conf (cachedOn ["D"; "E"; "A"]%string)))
                      node 7%N)
             <$> replicas (cachedOn ["D"; "E"; "A"]%string) 7).
Proof.
  assert (Hrun :
    Get 2 (cachedOn ["D"; "E"; "A"]%string) [] 7
      (cachedOn ["D"; "E"; "A"]%string) []
      ([] ++ ((λ node, EvGet node 7%N)
                <$> replicas (cachedOn ["D"; "E"; "A"]%string) 7))
      {| data := []; err := Some (ErrTransport 0) |}).
  { apply (Get_run 2 _ _ _ _ _ _
             ((λ node, NC_Get (NC (conf (cachedOn ["D"; "E"; "A"]%string)))
                         node 7%N)
                <$> replicas (cachedOn ["D"; "E"; "A"]%string) 7));
      [reflexivity | reflexivity | vm_compute; reflexivity]. }
  split; [exact Hrun|].
  destruct (Get_error_sound 2 _ _ _ _ _ _ _ (ErrTransport 0) Hrun eq_refl)
    as (_ & [Hge|[Hq _]]); [exact Hge | discriminate Hq].
Defined.

(** Scenario 1 and its answers in another order: "hi", "hi" and a miss, or
    the miss first; both runs return "hi". *)
Lemma Get_decided_below_2M_witness :
  ∃ out1 out2,
    Get 2 (cachedOn roster) [] 7 (cachedOn roster) []
      ([] ++ ((λ node, EvGet node 7%N) <$> replicas (cachedOn roster) 7)) out1
    ∧ Get 2 (cachedOn roster) [] 7 (cachedOn roster) []
        ([] ++ ((λ node, EvGet node 7%N) <$> replicas (cachedOn roster) 7))
        out2
    ∧ out1 = bytesAnswer hi
    ∧ out1 = out2.
Proof.
  assert (Hrun1 :
    Get 2 (cachedOn roster) [] 7 (cachedOn roster) []
      ([] ++ ((λ node, EvGet node 7%N) <$> replicas (cachedOn roster) 7))
      (bytesAnswer hi)).
  { apply (Get_run 2 _ _ _ _ _ _
             [bytesAnswer hi; bytesAnswer hi;
              {| data := []; err := Some ErrRecordNotFound |}]);
      [reflexivity | reflexivity | vm_compute; reflexivity]. }
  assert (Hrun2 :
    Get 2 (cachedOn roster) [] 7 (cachedOn roster) []
      ([] ++ ((λ node, EvGet node 7%N) <$> replicas (cachedOn roster) 7))
      (bytesAnswer hi)).
  { apply (Get_run 2 _ _ _ _ _ _
             [{| data := []; err := Some ErrRecordNotFound |};
              bytesAnswer hi; bytesAnswer hi]);
      [reflexivity
      | exact (Permutation_cons_append [bytesAnswer hi; bytesAnswer hi]
                 {| data := []; err := Some ErrRecordNotFound |})
      | vm_compute; reflexivity]. }
  exists (bytesAnswer hi), (bytesAnswer hi).
  split; [exact Hrun1|]. split; [exact Hrun2|]. split; [reflexivity|].
  exact (proj1 (Get_decided_below_2M 2 _ _ _ _ _ _ _ _ _ _ _
                  ltac:(lia) Hrun1 Hrun2 ltac:(simpl; lia))).
Defined.

(** Scenario 4 of the specification, by the first two answers. *)
Lemma Get_first_answers_decide_witness :
  collectGet 2 3 [bytesAnswer x; bytesAnswer x; bytesAnswer y] ∅ ∅
  = Some (bytesAnswer x).
Proof.
  exact (proj1 (Get_first_answers_decide 2 (bytesAnswer x) [bytesAnswer y]
                  ltac:(lia))).
Defined.

Lemma Get_order_matters_witness :
  collectGet 2 4
    [bytesAnswer x; bytesAnswer x; bytesAnswer y; bytesAnswer y] ∅ ∅
  = Some (bytesAnswer x)
  ∧ collectGet 2 4
      [bytesAnswer y; bytesAnswer y; bytesAnswer x; bytesAnswer x] ∅ ∅
    = Some (bytesAnswer y).
Proof.
  assert (Hne : x ≠ y) by discriminate.
  destruct (Get_order_matters 2 x y ltac:(lia) Hne) as (_ & Hx & Hy & _).
  split; [exact Hx | exact Hy].
Defined.

(** "A" and "B" both hold "hi". *)
Lemma Get_unanimous_witness :
  ∃ out,
    Get 2 (cachedOn ["A"; "B"]%string) [] 7 (cachedOn ["A"; "B"]%string) []
      ([] ++ ((λ node, EvGet node 7%N)
                <$> replicas (cachedOn ["A"; "B"]%string) 7)) out
    ∧ out = bytesAnswer hi.
Proof.
  destruct (Get_total 2 (cachedOn ["A"; "B"]%string) [] 7%N
              (cachedOn ["A"; "B"]%string) [] []
              ((λ node, NC_Get (NC (conf (cachedOn ["A"; "B"]%string)))
                          node 7%N)
                 <$> replicas (cachedOn ["A"; "B"]%string) 7)
              eq_refl (reflexivity _)) as (out & Hrun).
  exists out. split; [exact Hrun|].
  assert (Hlen : 2 ≤ length (replicas (cachedOn ["A"; "B"]%string) 7))
    by (simpl; lia).
  assert (Hall : ∀ node, node ∈ replicas (cachedOn ["A"; "B"]%string) 7 →
            NC_Get (NC (conf (cachedOn ["A"; "B"]%string))) node 7%N
            = bytesAnswer hi).
  { intros node Hin. change (replicas (cachedOn ["A"; "B"]%string) 7)
      with ["A"; "B"]%string in Hin.
    repeat (apply elem_of_cons in Hin as [->|Hin]; [reflexivity|]).
    by apply elem_of_nil in Hin. }
  exact (Get_unanimous 2 (cachedOn ["A"; "B"]%string) [] 7%N
           (cachedOn ["A"; "B"]%string) [] _ out hi ltac:(lia) Hlen Hall Hrun).
Defined.

(** Scenario 6 of the specification: two failures, two sleeps, three calls. *)
Lemma init_retries_witness :
  init (frontend roster firstThree) listAnswers
  = Some (cachedOn roster, [],
          [EvList "router"; EvSleep; EvList "router"; EvSleep;
           EvList "router"]).
Proof.
  assert (Hfailed : Forall (λ a : result (list string), ∃ e, a = Fail e)
                      [Fail (ErrTransport 0); Fail (ErrTransport 0)]).
  { repeat constructor; by eexists. }
  exact (proj1 (init_retries (conf (frontend roster firstThree))
                  [Fail (ErrTransport 0); Fail (ErrTransport 0)]
                  roster [] Hfailed)).
Defined.

(** With "C" forgotten, a Put goes to "A" and "B", two of the three replicas
    a Get asks. *)
Lemma written_within_read_witness :
  Router.NodesFind 2 routerStale 7 10000 = Ok ["A"; "B"]%string
  ∧ ["A"; "B"]%string `sublist_of` replicas (cachedOn roster) 7.
Proof.
  assert (Hfind : Router.NodesFind 2 routerStale 7 10000
                  = Ok ["A"; "B"]%string) by (vm_compute; reflexivity).
  split; [exact Hfind|].
  exact (proj1 (written_within_read 2 routerStale (cachedOn roster) 7%N
                  10000%Z ["A"; "B"]%string eq_refl eq_refl Hfind)).
Defined.

(** The entries of the map after two [ErrRecordExists] and two transport
    errors, however the map hands them out. *)
Lemma two_kinds_entries :
  map_to_list
    (errCounts
       (tallyAll [Some ErrRecordExists; Some ErrRecordExists;
                  Some (ErrTransport 0); Some (ErrTransport 0)]))
  ≡ₚ [(ErrRecordExists, 2); (ErrTransport 0, 2)].
Proof.
  apply NoDup_Permutation.
  - apply NoDup_map_to_list.
  - repeat constructor; rewrite ?elem_of_cons, ?elem_of_nil;
      intros H; try destruct H as [H|H]; done.
  - intros [e c]. rewrite elem_of_map_to_list.
    destruct (tallyAll_spec
                [Some ErrRecordExists; Some ErrRecordExists;
                 Some (ErrTransport 0); Some (ErrTransport 0)])
      as [_ Herr].
    rewrite Herr, !elem_of_cons, elem_of_nil.
    destruct e as [| | | | |[|tag]]; vm_compute; split;
      intros H; try discriminate; try (injection H as <-; tauto);
      destruct H as [H|[H|[]]]; congruence.
Qed.

(** C3, as stated, does not hold.  Four results, two [ErrRecordExists] and
    two transport errors, and the same four with the transport errors
    first: [MinRedundancy] being 2, both kinds have their two reports, the
    call on the first sequence can return [ErrRecordExists] and the call on
    the second the transport error.  The tallies are the same all along;
    the two outcomes are there for either order of arrival. *)
Lemma applyPutDel_order_two_outcomes :
  let results := [Some ErrRecordExists; Some ErrRecordExists;
                  Some (ErrTransport 0); Some (ErrTransport 0)] in
  let results' := [Some (ErrTransport 0); Some (ErrTransport 0);
                   Some ErrRecordExists; Some ErrRecordExists] in
  results ≡ₚ results'
  ∧ results = (λ node, NC_Put (NC (conf (frontend four firstThree)))
                         node 7%N hi) <$> four
  ∧ decision 2 results (Some ErrRecordExists)
  ∧ decision 2 results' (Some (ErrTransport 0))
  ∧ Some ErrRecordExists ≠ Some (ErrTransport 0)
  ∧ (∃ evs, Put 2 (frontend four firstThree) 7 hi evs (Some ErrRecordExists))
  ∧ (∃ evs, Put 2 (frontend four firstThree) 7 hi evs
              (Some (ErrTransport 0)))
  ∧ ¬ statedOrderIndependent 2.
Proof.
  intros results results'.
  assert (Hperm : results ≡ₚ results')
    by exact (Permutation_app_comm
                [Some ErrRecordExists; Some ErrRecordExists]
                [Some (ErrTransport 0); Some (ErrTransport 0)]).
  assert (Hfirst : decision 2 results (Some ErrRecordExists)).
  { apply decision_inv.
    exists [(ErrRecordExists, 2); (ErrTransport 0, 2)].
    split; [symmetry; exact two_kinds_entries | vm_compute; reflexivity]. }
  assert (Hsecond : decision 2 results' (Some (ErrTransport 0))).
  { apply decision_inv.
    exists [(ErrTransport 0, 2); (ErrRecordExists, 2)].
    rewrite (tallyAll_perm _ _ Hperm).
    split; [|vm_compute; reflexivity].
    rewrite two_kinds_entries. apply perm_swap. }
  assert (Hrun : ∀ arrived out,
    arrived ≡ₚ results → decision 2 arrived out →
    Put 2 (frontend four firstThree) 7%N hi
      (EvNodesFind "router" 7 :: (EvMethod <$> four)) out).
  { intros arrived out Harr (t & rest & order & Hc & Ho & ->).
    apply (applyPutDel_fanout 2 (frontend four firstThree) 7%N _ four
             arrived t rest order);
      [reflexivity | simpl; lia | exact Harr | | exact Ho].
    rewrite <- Hc. f_equal. by rewrite (Permutation_length Harr). }
  split; [exact Hperm|]. split; [reflexivity|].
  split; [exact Hfirst|]. split; [exact Hsecond|]. split; [discriminate|].
  split; [eexists; by apply (Hrun results)|].
  split; [eexists; apply (Hrun results'); [by symmetry | done]|].
  intros Hstated.
  pose proof (Hstated results results' _ _ Hperm Hfirst Hsecond) as Heq.
  discriminate Heq.
Qed.

End MoreScenarios.
